(** * GMRES (Walker's "simpler GMRES" with Householder reflections)

    A shallow embedding of [viennacl/linalg/gmres.hpp]: the configuration
    class [gmres_tag] and the function template [solve].

    The C++ code is a template over the matrix, vector, preconditioner and
    scalar types.  The embedding keeps that shape: the solver is written once
    over a [Scalar] interface and instantiated

    - at IEEE binary64 numbers (Rocq's primitive floats), which is what the
      code computes with when [CPU_ScalarType] is [double];
    - at the real numbers, for statements of exact arithmetic.

    Vectors are lists of scalars.  Every element access [v[i]] written in
    gmres.hpp is bounds-checked in the embedding: the solver runs in the
    [option] monad and [None] stands for undefined behaviour (an index past
    the end of a vector, or the integer division by zero in
    [max_restarts]).

    The [unsigned int] members of [gmres_tag] are integers with the 32-bit
    wrap-around written out; the loop counters [k], [i], [j], [it] range
    over vector sizes and are natural numbers.  The tolerance and the
    recorded error have the scalar type ([CPU_ScalarType] is [double]).
    The member [last_error_] is not initialised by the constructor: its
    indeterminate content is an argument of [new_gmres_tag]. *)

From Stdlib Require Import Floats.
From Stdlib Require Import ZArith List Bool Lia Arith.
From Stdlib Require Import Reals Lra.
From Stdlib Require Import Ring_theory Ring.
Import ListNotations.

Set Implicit Arguments.

(** ** Scalars *)

(** The operations gmres.hpp uses on [CPU_ScalarType].  [from_int] is
    [static_cast<CPU_ScalarType>(n)]; [fsqrt], [ffabs], [fsin], [facos] are
    [std::sqrt], [std::fabs], [std::sin], [std::acos]; [flt] and [feq] are
    [operator<] and [operator==]; [fepsilon] is
    [std::numeric_limits<CPU_ScalarType>::epsilon()]. *)
Class Scalar (F : Type) := {
  from_int : Z -> F;
  fadd : F -> F -> F;
  fsub : F -> F -> F;
  fmul : F -> F -> F;
  fdiv : F -> F -> F;
  fneg : F -> F;
  fsqrt : F -> F;
  ffabs : F -> F;
  fsin : F -> F;
  facos : F -> F;
  flt : F -> F -> bool;
  feq : F -> F -> bool;
  fepsilon : F
}.

(** ** The error monad for undefined behaviour *)

Definition bind {A B : Type} (m : option A) (f : A -> option B) : option B :=
  match m with
  | Some a => f a
  | None => None
  end.

Notation "x <- m ;; k" := (bind m (fun x => k))
  (at level 61, m at next level, right associativity).

(** [v[i]], read. *)
Definition read {A : Type} (v : list A) (i : nat) : option A := nth_error v i.

(** [v[i] = x]. *)
Fixpoint write {A : Type} (v : list A) (i : nat) (x : A) : option (list A) :=
  match v, i with
  | [], _ => None
  | _ :: t, O => Some (x :: t)
  | h :: t, S i' =>
      match write t i' x with
      | Some t' => Some (h :: t')
      | None => None
      end
  end.

(** ** Unsigned machine integers *)

Definition uint_modulus : Z := 2 ^ 32.
Definition wrap (z : Z) : Z := z mod uint_modulus.
Definition is_uint (z : Z) : Prop := (0 <= z < uint_modulus)%Z.

Section Generic.

Context {F : Type} {arith : Scalar F}.

Definition vec : Type := list F.

Definition zero : F := from_int 0.
Definition gpu_scalar_minus_1 : F := from_int (-1).
Definition gpu_scalar_1 : F := from_int 1.
Definition gpu_scalar_2 : F := from_int 2.

(** ** Vector primitives *)

(** The vector type and its operations live outside gmres.hpp (the vector
    classes, viennacl/linalg/{inner_prod,norm_2}.hpp,
    viennacl/traits/{clear,size}.hpp).  The spec lists what the solver
    needs of them: construct-with-size, zero-fill, copy, add, subtract and
    scale in compound-assignment form, inner product and 2-norm returning a
    host scalar. *)

(** Modelled from the spec: an element-wise binary operation on two vectors
    (the vector classes are not among the sources).  The operands have one
    length in every use; the shorter one bounds the result otherwise. *)
Fixpoint zip_with (f : F -> F -> F) (a b : vec) : vec :=
  match a, b with
  | x :: a', y :: b' => f x y :: zip_with f a' b'
  | _, _ => []
  end.

(** Modelled from the spec: a vector constructed with a size and
    zero-filled (the vector classes are not among the sources). *)
Definition zeros (n : nat) : vec := repeat zero n.

(** Modelled from the spec: [viennacl::traits::clear] (traits/clear.hpp is
    not among the sources), zero-fill in place. *)
Definition clear (v : vec) : vec := zeros (length v).

(** Modelled from the spec: [a += b] (the vector classes are not among the
    sources). *)
Definition vadd (a b : vec) : vec := zip_with fadd a b.

(** Modelled from the spec: [a -= b] (the vector classes are not among the
    sources). *)
Definition vsub (a b : vec) : vec := zip_with fsub a b.

(** Modelled from the spec: [a *= s], also [a * s] (the vector classes are
    not among the sources). *)
Definition vscale (a : vec) (s : F) : vec := map (fun x => fmul x s) a.

(** Modelled from the spec: [a /= s] (the vector classes are not among the
    sources). *)
Definition vdiv (a : vec) (s : F) : vec := map (fun x => fdiv x s) a.

(** Modelled from the spec: the accumulation loop of the inner product
    (linalg/inner_prod.hpp is not among the sources), from index 0 upwards. *)
Fixpoint inner_prod_acc (acc : F) (a b : vec) : F :=
  match a, b with
  | x :: a', y :: b' => inner_prod_acc (fadd acc (fmul x y)) a' b'
  | _, _ => acc
  end.

(** Modelled from the spec: [viennacl::linalg::inner_prod]
    (linalg/inner_prod.hpp is not among the sources). *)
Definition inner_prod (a b : vec) : F := inner_prod_acc zero a b.

(** Modelled from the spec: [viennacl::linalg::norm_2] (linalg/norm_2.hpp is
    not among the sources), the square root of the inner product of the
    vector with itself. *)
Definition norm_2 (a : vec) : F := fsqrt (inner_prod a a).

(** ** The configuration class [gmres_tag] *)

Record gmres_tag : Type := Build_tag {
  tol_ : F;
  iterations_ : Z;
  krylov_dim_ : Z;
  iters_taken_ : Z;
  last_error_ : F
}.

(** The constructor.  Its initialiser list is
    [tol_(tol), iterations_(max_iterations), krylov_dim_(krylov_dim),
    iters_taken_(0)]: [last_error_] is not initialised, so a new object
    holds in it whatever the memory held, here the argument
    [indeterminate]. *)
Definition new_gmres_tag (tol : F) (max_iterations krylov_dim : Z)
    (indeterminate : F) : gmres_tag :=
  {| tol_ := tol; iterations_ := max_iterations; krylov_dim_ := krylov_dim;
     iters_taken_ := 0; last_error_ := indeterminate |}.

Definition tolerance (t : gmres_tag) : F := tol_ t.
Definition max_iterations (t : gmres_tag) : Z := iterations_ t.
Definition krylov_dim (t : gmres_tag) : Z := krylov_dim_ t.

(** [max_restarts]; the unsigned division by [krylov_dim_ = 0] is undefined. *)
Definition max_restarts (t : gmres_tag) : option Z :=
  if (krylov_dim_ t =? 0)%Z then None
  else
    let ret := (iterations_ t / krylov_dim_ t)%Z in
    if (0 <? ret)%Z && (wrap (ret * krylov_dim_ t) =? iterations_ t)%Z
    then Some (wrap (ret - 1))
    else Some ret.

Definition iters (t : gmres_tag) : Z := iters_taken_ t.
Definition set_iters (i : Z) (t : gmres_tag) : gmres_tag :=
  {| tol_ := tol_ t; iterations_ := iterations_ t; krylov_dim_ := krylov_dim_ t;
     iters_taken_ := i; last_error_ := last_error_ t |}.
Definition error (t : gmres_tag) : F := last_error_ t.
Definition set_error (e : F) (t : gmres_tag) : gmres_tag :=
  {| tol_ := tol_ t; iterations_ := iterations_ t; krylov_dim_ := krylov_dim_ t;
     iters_taken_ := iters_taken_ t; last_error_ := e |}.

(** ** The working set of [solve] *)

(** The local variables of [solve] that live across loop iterations.
    [R_] is the table [R] of the source (the name [R] is taken by the real
    numbers). *)
Record workspace : Type := Build_workspace {
  result : vec;
  res : vec;
  v_k_tilde : vec;
  R_ : list (list F);
  projection_rhs : list F;
  U : list vec;
  rho : F;
  tag : gmres_tag
}.

Definition with_result (x : vec) (w : workspace) : workspace :=
  Build_workspace x (res w) (v_k_tilde w) (R_ w) (projection_rhs w) (U w) (rho w) (tag w).
Definition with_res (x : vec) (w : workspace) : workspace :=
  Build_workspace (result w) x (v_k_tilde w) (R_ w) (projection_rhs w) (U w) (rho w) (tag w).
Definition with_v_k_tilde (x : vec) (w : workspace) : workspace :=
  Build_workspace (result w) (res w) x (R_ w) (projection_rhs w) (U w) (rho w) (tag w).
Definition with_R (x : list (list F)) (w : workspace) : workspace :=
  Build_workspace (result w) (res w) (v_k_tilde w) x (projection_rhs w) (U w) (rho w) (tag w).
Definition with_projection_rhs (x : list F) (w : workspace) : workspace :=
  Build_workspace (result w) (res w) (v_k_tilde w) (R_ w) x (U w) (rho w) (tag w).
Definition with_U (x : list vec) (w : workspace) : workspace :=
  Build_workspace (result w) (res w) (v_k_tilde w) (R_ w) (projection_rhs w) x (rho w) (tag w).
Definition with_rho (x : F) (w : workspace) : workspace :=
  Build_workspace (result w) (res w) (v_k_tilde w) (R_ w) (projection_rhs w) (U w) x (tag w).
Definition with_tag (x : gmres_tag) (w : workspace) : workspace :=
  Build_workspace (result w) (res w) (v_k_tilde w) (R_ w) (projection_rhs w) (U w) (rho w) x.

(** ** Helpers of the inner loop *)

(** [detail::gmres_copy_helper(src, dest, len)], the generic overload:
    [for (i = 0; i < len; ++i) dest[i] = src[i];]. [copy_from] is the loop
    from index [i] with [n] iterations left. *)
Fixpoint copy_from (src dest : list F) (i n : nat) : option (list F) :=
  match n with
  | O => Some dest
  | S n' =>
      x <- read src i ;;
      dest' <- write dest i x ;;
      copy_from src dest' (S i) n'
  end.

Definition gmres_copy_helper (src dest : list F) (len : nat) : option (list F) :=
  copy_from src dest 0 len.

(** One Householder reflection, [v -= u * (inner_prod(u, v) * 2)]. *)
Definition reflect (u v : vec) : vec :=
  vsub v (vscale u (fmul (inner_prod u v) gpu_scalar_2)).

(** [for (int i = k-1; i > -1; --i) v -= U[i] * (inner_prod(U[i], v) * 2);] *)
Fixpoint reflect_down (Us : list vec) (k : nat) (v : vec) : option vec :=
  match k with
  | O => Some v
  | S i =>
      u <- read Us i ;;
      reflect_down Us i (reflect u v)
  end.

(** [for (unsigned int i = 0; i < k; ++i) v -= U[i] * (...);], from index
    [i] with [n] iterations left. *)
Fixpoint reflect_up (Us : list vec) (i n : nat) (v : vec) : option vec :=
  match n with
  | O => Some v
  | S n' =>
      u <- read Us i ;;
      reflect_up Us (S i) n' (reflect u v)
  end.

(** The working set with the recorded error blanked: two working sets with
    one image differ in [last_error_] at most. *)
Definition forget_error (w : workspace) : workspace :=
  with_tag (set_error zero (tag w)) w.

(** Two configuration objects with the same three parameters. *)
Definition same_configuration (t t' : gmres_tag) : Prop :=
  tolerance t' = tolerance t /\ max_iterations t' = max_iterations t
  /\ krylov_dim t' = krylov_dim t.

(** The contract of the matrix and of the preconditioner: applied to a
    vector of the problem's dimension [n] they produce one of that
    dimension. *)
Definition size_preserving (n : nat) (f : vec -> vec) : Prop :=
  forall v, length v = n -> length (f v) = n.

(** The shape of the working set for a problem of size [n] and a clamped
    Krylov dimension [kd]. *)
Definition well_sized (n kd : nat) (w : workspace) : Prop :=
  length (result w) = n /\ length (res w) = n /\ length (v_k_tilde w) = n
  /\ length (R_ w) = kd /\ Forall (fun r => length r = kd) (R_ w)
  /\ length (projection_rhs w) = kd
  /\ length (U w) = kd /\ Forall (fun u => length u = n) (U w).

(** [R[j][i]], and the sum of [f a], ..., [f (a + c - 1)]. *)
Definition entry (Rs : list (list F)) (j i : nat) : F := nth i (nth j Rs []) zero.

Fixpoint sum_range (f : nat -> F) (a c : nat) : F :=
  match c with
  | O => zero
  | S c' => fadd (f a) (sum_range f (S a) c')
  end.

(** [x - f a - f (a+1) - ... - f (a+c-1)], subtracted one after the other
    as the loop of lines 308-310 does. *)
Fixpoint sub_range (f : nat -> F) (x : F) (a c : nat) : F :=
  match c with
  | O => x
  | S c' => sub_range f (fsub x (f a)) (S a) c'
  end.

(** What of that shape a restart cycle relies on when it starts: [R] and
    [U] are reset before they are read. *)
Definition cycle_sized (n kd : nat) (w : workspace) : Prop :=
  length (result w) = n /\ length (v_k_tilde w) = n
  /\ length (projection_rhs w) = kd.

Section Solve.

(** The matrix and the preconditioner are opaque capabilities:
    [viennacl::linalg::prod(matrix, v)] and [precond.apply(v)]. *)
Variable matrix : vec -> vec.
Variable precond : vec -> vec.
Variable rhs : vec.

Definition problem_size : nat := length rhs.

Inductive step_exit : Type := Continue | Breakdown | Converged.

(** [v_k_tilde] of inner step [k] (gmres.hpp, lines 200-220). *)
Definition candidate (k : nat) (w : workspace) : option vec :=
  match k with
  | O => Some (precond (matrix (res w)))
  | S k' =>
      v0 <- write (clear (v_k_tilde w)) k' gpu_scalar_1 ;;
      v1 <- reflect_down (U w) k v0 ;;
      reflect_up (U w) 0 k (precond (matrix v1))
  end.

(** [U[k]] after lines 224-229: cleared, the first [k] entries of
    [v_k_tilde] copied in, and the diagonal entry set. *)
Definition start_reflection (k : nat) (v : vec) : option vec :=
  u <- gmres_copy_helper v (zeros problem_size) k ;;
  write u k (fsqrt (fsub (inner_prod v v) (inner_prod u u))).

(** The breakdown threshold [10 * epsilon()]. *)
Definition breakdown_threshold : F := fmul (from_int 10) fepsilon.

(** Lines 265-269: the two clamps of [res[k]]. *)
Definition clamp (k : nat) (r : vec) (rh : F) : option vec :=
  x <- read r k ;;
  r1 <- (if flt rh x then write r k rh else Some r) ;;
  y <- read r1 k ;;
  if flt y (fneg rh) then write r1 k (fneg rh) else Some r1.

(** The body of the inner loop (lines 197-289) for the counter value [k]. *)
Definition inner_step (norm_rhs rho_0 : F) (k : nat) (w : workspace)
    : option (step_exit * workspace) :=
  let w := with_tag (set_iters (wrap (iters (tag w) + 1)) (tag w)) w in
  v <- candidate k w ;;
  let w := with_v_k_tilde v w in
  Uk <- start_reflection k v ;;
  U1 <- write (U w) k Uk ;;
  let w := with_U U1 w in
  ukk <- read Uk k ;;
  if flt (ffabs ukk) breakdown_threshold then Some (Breakdown, w)
  else
    Rk <- read (R_ w) k ;;
    Rk' <- gmres_copy_helper Uk Rk (k + 1) ;;
    R1 <- write (R_ w) k Rk' ;;
    let w := with_R R1 w in
    let Uk := vsub Uk v in
    let Uk := vscale Uk (fdiv gpu_scalar_minus_1 (norm_2 Uk)) in
    U2 <- write (U w) k Uk ;;
    let w := with_U U2 w in
    r <- clamp k (reflect Uk (res w)) (rho w) ;;
    let w := with_res r w in
    x <- read r k ;;
    p <- write (projection_rhs w) k x ;;
    let w := with_projection_rhs p w in
    pk <- read p k ;;
    let w := with_rho (fmul (rho w) (fsin (facos (fdiv pk (rho w))))) w in
    let e := ffabs (fdiv (fmul (rho w) rho_0) norm_rhs) in
    if flt e (tolerance (tag w))
    then Some (Converged, with_tag (set_error e (tag w)) w)
    else Some (Continue, w).

(** [for (k = 0; k < krylov_dim; ++k)], from counter value [k] with [n]
    values left; returns the value of [k] after the loop. *)
Fixpoint inner_loop (norm_rhs rho_0 : F) (n k : nat) (w : workspace)
    : option (nat * workspace) :=
  match n with
  | O => Some (k, w)
  | S n' =>
      sw <- inner_step norm_rhs rho_0 k w ;;
      match sw with
      | (Breakdown, w') => Some (k, w')
      | (Converged, w') => Some (S k, w')
      | (Continue, w') => inner_loop norm_rhs rho_0 n' (S k) w'
      end
  end.

(** The passes through the body of the inner loop that [inner_loop] makes,
    one per [inner_step] it calls: each pass executes line 197,
    [tag.iters(tag.iters() + 1)], once, also the pass that ends in a
    breakdown. *)
Fixpoint inner_steps_entered (norm_rhs rho_0 : F) (n k : nat) (w : workspace)
    : option nat :=
  match n with
  | O => Some 0
  | S n' =>
      sw <- inner_step norm_rhs rho_0 k w ;;
      match sw with
      | (Continue, w') =>
          s <- inner_steps_entered norm_rhs rho_0 n' (S k) w' ;; Some (S s)
      | (_, _) => Some 1
      end
  end.

(** Lines 308-310: [for (j = i+1; j < k; ++j) p[i] -= R[j][i] * p[j];],
    from [j] with [n] iterations left. *)
Fixpoint eliminate (Rs : list (list F)) (i j n : nat) (p : list F) : option (list F) :=
  match n with
  | O => Some p
  | S n' =>
      Rj <- read Rs j ;;
      rji <- read Rj i ;;
      pj <- read p j ;;
      pi <- read p i ;;
      p' <- write p i (fsub pi (fmul rji pj)) ;;
      eliminate Rs i (S j) n' p'
  end.

(** Lines 306-313: [for (int i = k-1; i > -1; --i) {...}]; [m] is [i+1]. *)
Fixpoint back_substitution (Rs : list (list F)) (k m : nat) (p : list F) : option (list F) :=
  match m with
  | O => Some p
  | S i =>
      p1 <- eliminate Rs i (S i) (k - S i) p ;;
      Ri <- read Rs i ;;
      rii <- read Ri i ;;
      pi <- read p1 i ;;
      p2 <- write p1 i (fdiv pi rii) ;;
      back_substitution Rs k i p2
  end.

(** Lines 325-328: [for (i = 0; i < k-1; ++i) res[i] += projection_rhs[i+1];],
    from [i] with [n] iterations left. *)
Fixpoint add_coefficients (p : list F) (i n : nat) (r : vec) : option vec :=
  match n with
  | O => Some r
  | S n' =>
      x <- read r i ;;
      c <- read p (S i) ;;
      r' <- write r i (fadd x c) ;;
      add_coefficients p (S i) n' r'
  end.

(** Lines 321-335: the correction of one restart cycle is added to
    [result]. *)
Definition reconstruct (rho_0 : F) (k : nat) (w : workspace) : option workspace :=
  c0 <- read (projection_rhs w) 0 ;;
  let r := vscale (res w) c0 in
  r <- (if (0 <? k)%nat then add_coefficients (projection_rhs w) 0 (k - 1) r else Some r) ;;
  r <- reflect_down (U w) k r ;;
  let r := vscale r rho_0 in
  Some (with_result (vadd (result w) r) (with_res r w)).

(** The clamped Krylov dimension (lines 133-135). *)
Definition krylov_dim_used (t : gmres_tag) : nat :=
  if (Z.of_nat problem_size <? krylov_dim t)%Z then problem_size
  else Z.to_nat (krylov_dim t).

(** Lines 306-350: what follows the inner loop in a restart cycle.  The
    boolean tells whether [solve] returns. *)
Definition finish_cycle (norm_rhs rho_0 : F) (k : nat) (w : workspace)
    : option (bool * workspace) :=
  p <- back_substitution (R_ w) k k (projection_rhs w) ;;
  w <- reconstruct rho_0 k (with_projection_rhs p w) ;;
  let e := ffabs (fdiv (fmul (rho w) rho_0) norm_rhs) in
  if flt e (tolerance (tag w))
  then Some (true, with_tag (set_error e (tag w)) w)
  else Some (false, with_tag (set_error (ffabs (fmul (rho w) rho_0)) (tag w)) w).

(** The residual a restart cycle starts from (lines 168-170). *)
Definition initial_residual (x : vec) : vec := precond (vsub rhs (matrix x)).

(** The state at the head of the inner loop (lines 174, 184-193). *)
Definition enter_inner (kd : nat) (rho_0 : F) (w : workspace) : workspace :=
  with_U (repeat (zeros problem_size) kd)
    (with_R (repeat (zeros kd) kd)
       (with_rho (from_int 1)
          (with_res (vdiv (initial_residual (result w)) rho_0) w))).

(** The body of the restart loop (lines 166-350). *)
Definition restart_cycle (norm_rhs : F) (kd : nat) (w : workspace)
    : option (bool * workspace) :=
  let r := initial_residual (result w) in
  let rho_0 := norm_2 r in
  if flt (fdiv rho_0 norm_rhs) (tolerance (tag w)) || feq norm_rhs zero
  then Some (true, with_tag (set_error (fdiv rho_0 norm_rhs) (tag w))
                     (with_rho (from_int 1) (with_res r w)))
  else
    kw <- inner_loop norm_rhs rho_0 kd 0 (enter_inner kd rho_0 w) ;;
    finish_cycle norm_rhs rho_0 (fst kw) (snd kw).

(** The passes through the body of the inner loop in one restart cycle:
    none when the cycle returns at its start. *)
Definition cycle_steps_entered (norm_rhs : F) (kd : nat) (w : workspace) : option nat :=
  let r := initial_residual (result w) in
  let rho_0 := norm_2 r in
  if flt (fdiv rho_0 norm_rhs) (tolerance (tag w)) || feq norm_rhs zero
  then Some 0
  else inner_steps_entered norm_rhs rho_0 kd 0 (enter_inner kd rho_0 w).

(** [for (it = 0; it <= tag.max_restarts(); ++it)] with [n] cycles left. *)
Fixpoint restart_loop (norm_rhs : F) (kd n : nat) (w : workspace) : option workspace :=
  match n with
  | O => Some w
  | S n' =>
      bw <- restart_cycle norm_rhs kd w ;;
      if fst bw then Some (snd bw) else restart_loop norm_rhs kd n' (snd bw)
  end.

(** The passes through the body of the inner loop in the restart loop,
    cycle after cycle until [solve] returns. *)
Fixpoint loop_steps_entered (norm_rhs : F) (kd n : nat) (w : workspace) : option nat :=
  match n with
  | O => Some 0
  | S n' =>
      bw <- restart_cycle norm_rhs kd w ;;
      s <- cycle_steps_entered norm_rhs kd w ;;
      if fst bw then Some s
      else s' <- loop_steps_entered norm_rhs kd n' (snd bw) ;; Some (s + s')
  end.

(** [cycles norm_rhs kd m w w']: starting from [w], [m] restart cycles in a
    row run to their end without [solve] returning, and leave [w']. *)
Inductive cycles (norm_rhs : F) (kd : nat) : nat -> workspace -> workspace -> Prop :=
| cycles_none : forall w, cycles norm_rhs kd 0 w w
| cycles_more : forall m w w1 w2,
    restart_cycle norm_rhs kd w = Some (false, w1) ->
    cycles norm_rhs kd m w1 w2 ->
    cycles norm_rhs kd (S m) w w2.

(** The working set when the restart loop is entered (lines 130-162).
    [res] and [v_k_tilde] are allocated without a value and assigned before
    they are read; they start as zero vectors here. *)
Definition initial_workspace (t : gmres_tag) : workspace :=
  let kd := krylov_dim_used t in
  {| result := zeros problem_size;
     res := zeros problem_size;
     v_k_tilde := zeros problem_size;
     R_ := repeat (zeros (Z.to_nat (krylov_dim t))) kd;
     projection_rhs := zeros kd;
     U := repeat (zeros problem_size) kd;
     rho := from_int 1;
     tag := set_iters 0 t |}.

(** [solve(matrix, rhs, tag, precond)]: the result vector and the
    configuration object after the call. *)
Definition solve (t : gmres_tag) : option (vec * gmres_tag) :=
  let norm_rhs := norm_2 rhs in
  if feq norm_rhs zero then Some (zeros problem_size, t)
  else
    mr <- max_restarts t ;;
    w <- restart_loop norm_rhs (krylov_dim_used t) (S (Z.to_nat mr)) (initial_workspace t) ;;
    Some (result w, tag w).

(** The passes through the body of the inner loop in one call of [solve]. *)
Definition steps_entered (t : gmres_tag) : option nat :=
  let norm_rhs := norm_2 rhs in
  if feq norm_rhs zero then Some 0
  else
    mr <- max_restarts t ;;
    loop_steps_entered norm_rhs (krylov_dim_used t) (S (Z.to_nat mr)) (initial_workspace t).

End Solve.

(** Modelled from the spec: [no_precond], the preconditioner of the
    overload without one, is declared outside gmres.hpp; the spec has it as
    the identity, a no-op [apply]. *)
Definition no_precond (v : vec) : vec := v.

(** The overload [solve(matrix, rhs, tag)] (lines 358-362). *)
Definition solve_no_precond (matrix : vec -> vec) (rhs : vec) (t : gmres_tag)
    : option (vec * gmres_tag) :=
  solve matrix no_precond rhs t.

(** Modelled from the spec: [viennacl::linalg::prod] is declared outside
    gmres.hpp; for a dense matrix given by its rows it is the vector of the
    inner products of the rows with the argument. *)
Definition prod (rows : list vec) (v : vec) : vec :=
  map (fun r => inner_prod r v) rows.

End Generic.

Arguments vec : clear implicits.
Arguments gmres_tag : clear implicits.
Arguments workspace : clear implicits.

(** ** Proof steps for monadic code *)

(** Reduce the projections of an updated working set and the binds whose
    first computation is a value. *)
Ltac wsimpl :=
  cbn [bind result res v_k_tilde R_ projection_rhs U rho tag
       with_result with_res with_v_k_tilde with_R with_projection_rhs
       with_U with_rho with_tag fst snd] in *.

Ltac mstep E := rewrite E; wsimpl.

(** Split a successful sequence of binds into its successful parts. *)
Ltac bind_inv Hs :=
  repeat match type of Hs with
         | bind ?m _ = Some _ =>
             let E := fresh "E" in
             destruct m eqn:E; cbn [bind] in Hs; [|discriminate Hs]
         end.

(** ** The scalar type [double] *)

(** IEEE binary64 arithmetic with Rocq's primitive floats.  [std::sin] and
    [std::acos] belong to the C library, not to this repository: they are
    parameters of the instance. *)
Definition double_from_int (z : Z) : float :=
  if (z <? 0)%Z then PrimFloat.opp (PrimFloat.of_uint63 (Uint63.of_Z (- z)))
  else PrimFloat.of_uint63 (Uint63.of_Z z).

Definition double_epsilon : float := 0x1p-52%float.

#[local] Instance double_scalar (libm_sin libm_acos : float -> float) : Scalar float := {|
  from_int := double_from_int;
  fadd := PrimFloat.add;
  fsub := PrimFloat.sub;
  fmul := PrimFloat.mul;
  fdiv := PrimFloat.div;
  fneg := PrimFloat.opp;
  fsqrt := PrimFloat.sqrt;
  ffabs := PrimFloat.abs;
  fsin := libm_sin;
  facos := libm_acos;
  flt := PrimFloat.ltb;
  feq := PrimFloat.eqb;
  fepsilon := double_epsilon
|}.

(** Binary64 arithmetic for runs that call neither [std::sin] nor
    [std::acos]: the two parameters are filled with the identity. *)
Definition double_without_libm : Scalar float :=
  double_scalar (fun x => x) (fun x => x).

(** A binary64 number that is neither an infinity nor not-a-number. *)
Definition is_finite (x : float) : bool :=
  match Prim2SF x with
  | S754_zero _ | S754_finite _ _ _ => true
  | _ => false
  end.

(** ** Exact arithmetic *)

Definition real_lt (x y : R) : bool := if Rlt_dec x y then true else false.
Definition real_eq (x y : R) : bool := if Req_dec_T x y then true else false.

#[local] Instance real_scalar : Scalar R := {|
  from_int := IZR;
  fadd := Rplus;
  fsub := Rminus;
  fmul := Rmult;
  fdiv := Rdiv;
  fneg := Ropp;
  fsqrt := sqrt;
  ffabs := Rabs;
  fsin := sin;
  facos := acos;
  flt := real_lt;
  feq := real_eq;
  fepsilon := (/ 2 ^ 52)%R
|}.

(** The inner product of two real vectors by structural recursion, the
    form the proofs about exact arithmetic reason with; [inner_prod_dot]
    relates it to the accumulating loop [inner_prod]. *)
Fixpoint dot (a b : list R) : R :=
  match a, b with
  | x :: a', y :: b' => (x * y + dot a' b')%R
  | _, _ => 0%R
  end.

(** ** Concrete inputs *)

(** The defaults of the constructor, [gmres_tag(1e-10, 300, 20)]; the
    literal [1e-10] denotes the binary64 number below. *)
Definition default_tolerance : float := 0x1.b7cdfd9d7bdbbp-34%float.

Definition default_tag (indeterminate : float) : gmres_tag float :=
  new_gmres_tag default_tolerance 300 20 indeterminate.

(** The 2 x 2 identity matrix, the first unit vector and the zero vector. *)
Definition identity_2 : list (vec float) := [[1; 0]; [0; 1]]%float.
Definition e_0 : vec float := [1; 0]%float.
Definition zero_2 : vec float := [0; 0]%float.

(** A singular 2 x 2 matrix and a right-hand side for it; a configuration
    with tolerance 0, one inner step per cycle and [max_it] iterations. *)
Definition singular_2 : list (vec float) := [[-1; 0]; [0; 0]]%float.
Definition rhs_34 : vec float := [3; 4]%float.
Definition tag_tol0 (max_it : Z) (indeterminate : float) : gmres_tag float :=
  new_gmres_tag 0%float max_it 1 indeterminate.

(** A configuration object that a run has used before: [iters()] and
    [error()] hold what that run left. *)
Definition reused_tag (stale_iters : Z) (stale_error : float) : gmres_tag float :=
  set_error stale_error (set_iters stale_iters (default_tag stale_error)).

(** A right-hand side whose squares overflow, a 1 x 1 and a 2 x 2
    triangular factor in transposed storage with right-hand sides for
    them, and a configuration with the tolerance 2. *)
Definition rhs_overflow : vec float := [0x1p600; 0x1p600]%float.
Definition tag_tolerance_2 : gmres_tag float := new_gmres_tag 2%float 300 20 0%float.

(** The 1 x 1 zero matrix in binary64, whose first candidate vector is zero. *)
Definition zero_matrix_1_double : list (vec float) := [[0]]%float.
Definition rhs_1_double : vec float := [2]%float.

(** Inputs over the real numbers. *)
Definition real_tolerance : R := (/ 10 ^ 10)%R.

(** The 3 x 3 system of the spec's example, [krylov_dim = 100]. *)
Definition identity_3 : list (vec R) := [[1; 0; 0]; [0; 1; 0]; [0; 0; 1]]%R.
Definition rhs_3 : vec R := [1; 2; 3]%R.
Definition zero_3 : vec R := [0; 0; 0]%R.
Definition tag_100 : gmres_tag R := new_gmres_tag real_tolerance 300 100 0%R.

(** The 1 x 1 zero matrix, whose first candidate vector is zero. *)
Definition zero_matrix_1 : list (vec R) := [[0%R]].
Definition rhs_1 : vec R := [2%R].
Definition tag_1 : gmres_tag R := new_gmres_tag real_tolerance 1 1 0%R.

(** A triangular factor in transposed storage, [R[1][0] = 1], and a
    right-hand side for it. *)
Definition R_2 : list (list R) := [[2; 0]; [1; 4]]%R.
Definition p_2 : list R := [5; 8]%R.

(** A budget that is not a multiple of the Krylov dimension, a Krylov
    dimension of zero, and an object whose outputs a previous run has
    written. *)
Definition tag_250 : gmres_tag R := new_gmres_tag real_tolerance 250 100 0%R.
Definition tag_no_krylov_dim : gmres_tag R := new_gmres_tag real_tolerance 300 0 0%R.
Definition tag_used : gmres_tag R := Build_tag real_tolerance 300 100 7 5%R.

(** ** Proof steps for runs on not-a-number *)

Ltac nan_arith spec :=
  intros; apply Prim2SF_inj; rewrite spec;
  change (Prim2SF nan) with S754_nan;
  match goal with |- context [Prim2SF ?x] => destruct (Prim2SF x) end; reflexivity.

(** * Properties *)

(** ** Checked element access *)

Section Access.

Context {A : Type}.

Lemma write_some (v : list A) (i : nat) (x : A) :
  i < length v -> exists v', write v i x = Some v'.
Proof.
  revert i; induction v as [|h t IH]; intros i Hi; simpl in *; [lia|].
  destruct i as [|i]; [eauto|].
  destruct (IH i) as [t' Ht]; [lia|]. rewrite Ht. eauto.
Qed.

Lemma write_length (v v' : list A) (i : nat) (x : A) :
  write v i x = Some v' -> length v' = length v.
Proof.
  revert i v'; induction v as [|h t IH]; intros i v' Hw; simpl in *; [discriminate|].
  destruct i as [|i].
  - inversion Hw; reflexivity.
  - destruct (write t i x) as [t'|] eqn:E; [|discriminate].
    inversion Hw; subst; simpl. f_equal. eapply IH; eauto.
Qed.

Lemma write_bound (v v' : list A) (i : nat) (x : A) :
  write v i x = Some v' -> i < length v.
Proof.
  revert i v'; induction v as [|h t IH]; intros i v' Hw; simpl in *; [discriminate|].
  destruct i as [|i]; [lia|].
  destruct (write t i x) as [t'|] eqn:E; [|discriminate].
  apply IH in E. lia.
Qed.

Lemma nth_write_same (d : A) (v v' : list A) (i : nat) (x : A) :
  write v i x = Some v' -> nth i v' d = x.
Proof.
  revert i v'; induction v as [|h t IH]; intros i v' Hw; simpl in *; [discriminate|].
  destruct i as [|i].
  - inversion Hw; reflexivity.
  - destruct (write t i x) as [t'|] eqn:E; [|discriminate].
    inversion Hw; subst; simpl. eapply IH; eauto.
Qed.

Lemma nth_write_other (d : A) (v v' : list A) (i j : nat) (x : A) :
  write v i x = Some v' -> j <> i -> nth j v' d = nth j v d.
Proof.
  revert i j v'; induction v as [|h t IH]; intros i j v' Hw Hne; simpl in *; [discriminate|].
  destruct i as [|i].
  - inversion Hw; subst. destruct j; [congruence|reflexivity].
  - destruct (write t i x) as [t'|] eqn:E; [|discriminate].
    inversion Hw; subst. destruct j as [|j]; simpl; [reflexivity|].
    eapply IH; eauto.
Qed.

Lemma read_some (d : A) (v : list A) (i : nat) :
  i < length v -> read v i = Some (nth i v d).
Proof.
  intros Hi. unfold read. apply nth_error_nth'. exact Hi.
Qed.

Lemma read_nth (d : A) (v : list A) (i : nat) (x : A) :
  read v i = Some x -> nth i v d = x.
Proof.
  unfold read. intros Hr. apply nth_error_nth. exact Hr.
Qed.

Lemma read_bound (v : list A) (i : nat) (x : A) :
  read v i = Some x -> i < length v.
Proof.
  unfold read. intros Hr. apply nth_error_Some. congruence.
Qed.

Lemma write_Forall (P : A -> Prop) (v v' : list A) (i : nat) (x : A) :
  write v i x = Some v' -> Forall P v -> P x -> Forall P v'.
Proof.
  revert i v'; induction v as [|h t IH]; intros i v' Hw Hv Hx; simpl in *; [discriminate|].
  inversion Hv; subst.
  destruct i as [|i].
  - inversion Hw; subst. constructor; assumption.
  - destruct (write t i x) as [t'|] eqn:E; [|discriminate].
    inversion Hw; subst. constructor; [assumption|]. eapply IH; eauto.
Qed.

Lemma Forall_read (P : A -> Prop) (v : list A) (i : nat) (x : A) :
  Forall P v -> read v i = Some x -> P x.
Proof.
  intros Hv Hr. rewrite Forall_forall in Hv. apply Hv.
  eapply nth_error_In. exact Hr.
Qed.

Lemma read_write_same (v v' : list A) (i : nat) (x : A) :
  write v i x = Some v' -> read v' i = Some x.
Proof.
  intros Hw. pose proof (write_bound _ _ _ Hw) as Hb.
  rewrite (read_some x) by (rewrite (write_length _ _ _ Hw); exact Hb).
  f_equal. eapply nth_write_same; eauto.
Qed.

End Access.

(** ** The configuration *)

Section Configuration.

Context {F : Type} `{Scalar F}.

(** C3.  With a Krylov dimension above zero, [max_restarts()] is the integer
    quotient [max_iterations / krylov_dim], less one exactly when the
    remainder is zero and the quotient positive; the restarts times the
    Krylov dimension stay within the iteration budget. *)
Theorem max_restarts_quotient (t : gmres_tag F) :
  is_uint (max_iterations t) -> is_uint (krylov_dim t) -> (0 < krylov_dim t)%Z ->
  let q := (max_iterations t / krylov_dim t)%Z in
  let r := if ((max_iterations t) mod (krylov_dim t) =? 0)%Z && (0 <? q)%Z
           then (q - 1)%Z else q in
  max_restarts t = Some r /\ (r * krylov_dim t <= max_iterations t)%Z.
Proof.
  intros Hi Hk Hpos q r. subst r q.
  unfold is_uint, uint_modulus, max_iterations, krylov_dim, max_restarts in *.
  set (q := (iterations_ t / krylov_dim_ t)%Z).
  destruct (Z.eqb_spec (krylov_dim_ t) 0) as [E|_]; [lia|].
  assert (Hq : (0 <= q <= iterations_ t)%Z).
  { subst q. split; [apply Z.div_pos; lia|]. apply Z.div_le_upper_bound; nia. }
  assert (Hmul : (q * krylov_dim_ t <= iterations_ t)%Z).
  { subst q. rewrite Z.mul_comm. apply Z.mul_div_le. lia. }
  assert (Hdm := Z.div_mod (iterations_ t) (krylov_dim_ t) ltac:(lia)).
  fold q in Hdm.
  assert (Hw : wrap (q * krylov_dim_ t) = (q * krylov_dim_ t)%Z).
  { unfold wrap, uint_modulus. apply Z.mod_small. nia. }
  rewrite Hw.
  destruct (Z.ltb_spec 0 q) as [Hq0|Hq0]; simpl.
  - destruct (Z.eqb_spec (q * krylov_dim_ t) (iterations_ t)) as [E|E];
    destruct (Z.eqb_spec (iterations_ t mod krylov_dim_ t) 0) as [E'|E']; simpl.
    + split; [|nia]. f_equal. unfold wrap, uint_modulus. apply Z.mod_small. lia.
    + exfalso. lia.
    + exfalso. lia.
    + split; [reflexivity|lia].
  - rewrite andb_false_r. split; [reflexivity|lia].
Qed.

(** What holds of C2 on a new configuration object.  When the 2-norm of
    [rhs] compares equal to zero, [solve] returns the zero vector of the
    size of [rhs] at once: the configuration object is handed back as it
    was, the matrix and the preconditioner are not applied and not even
    [max_restarts()] is evaluated.  On a configuration as the constructor
    builds it the iteration count then still reads the constructor's 0. *)
Theorem solve_zero_rhs (matrix precond : vec F -> vec F) (rhs : vec F)
    (tol : F) (max_it kd : Z) (indeterminate : F) :
  feq (norm_2 rhs) zero = true ->
  let t := new_gmres_tag tol max_it kd indeterminate in
  solve matrix precond rhs t = Some (zeros (length rhs), t)
  /\ iters t = 0%Z
  /\ length (zeros (F := F) (length rhs)) = length rhs.
Proof.
  intros Hz t. unfold solve. rewrite Hz. unfold problem_size.
  repeat split. apply repeat_length.
Qed.

(** The early return leaves every field of any configuration untouched, so a
    reused object keeps the outputs of the run before. *)
Lemma solve_zero_rhs_keeps_tag (matrix precond : vec F -> vec F) (rhs : vec F)
    (t : gmres_tag F) :
  feq (norm_2 rhs) zero = true ->
  solve matrix precond rhs t = Some (zeros (length rhs), t).
Proof.
  intros Hz. unfold solve. rewrite Hz. reflexivity.
Qed.

End Configuration.

(** ** The inner loop *)

Section InnerLoop.

Context {F : Type} `{Scalar F}.
Variables matrix precond : vec F -> vec F.
Variable rhs : vec F.

Lemma start_reflection_diag (k : nat) (v u0 : vec F) :
  gmres_copy_helper v (zeros (problem_size rhs)) k = Some u0 ->
  k < length u0 ->
  exists u,
    start_reflection rhs k v = Some u
    /\ read u k = Some (fsqrt (fsub (inner_prod v v) (inner_prod u0 u0))).
Proof.
  intros Hc Hk. unfold start_reflection. rewrite Hc. simpl.
  destruct (write_some u0 (fsqrt (fsub (inner_prod v v) (inner_prod u0 u0))) Hk) as [u Hu].
  exists u. split; [exact Hu|]. eapply read_write_same; eauto.
Qed.

Lemma breakdown_step (norm_rhs rho_0 : F) (n k : nat)
    (w : workspace F) (v u0 : vec F) :
  candidate matrix precond k w = Some v ->
  gmres_copy_helper v (zeros (problem_size rhs)) k = Some u0 ->
  k < length u0 ->
  k < length (U w) ->
  flt (ffabs (fsqrt (fsub (inner_prod v v) (inner_prod u0 u0)))) breakdown_threshold = true ->
  exists w',
    inner_step matrix precond rhs norm_rhs rho_0 k w = Some (Breakdown, w')
    /\ inner_loop matrix precond rhs norm_rhs rho_0 (S n) k w = Some (k, w')
    /\ R_ w' = R_ w
    /\ projection_rhs w' = projection_rhs w
    /\ res w' = res w
    /\ rho w' = rho w
    /\ result w' = result w
    /\ error (tag w') = error (tag w)
    /\ finish_cycle norm_rhs rho_0 k w' =
         (p <- back_substitution (R_ w) k k (projection_rhs w) ;;
          w2 <- reconstruct rho_0 k (with_projection_rhs p w') ;;
          let e := ffabs (fdiv (fmul (rho w2) rho_0) norm_rhs) in
          if flt e (tolerance (tag w2))
          then Some (true, with_tag (set_error e (tag w2)) w2)
          else Some (false, with_tag (set_error (ffabs (fmul (rho w2) rho_0)) (tag w2)) w2)).
Proof.
  intros Hv Hc Hk HU Hb.
  destruct (start_reflection_diag v Hc Hk) as (u & Hu & Hr).
  destruct (write_some (U w) u HU) as [U1 HU1].
  assert (Hstep : inner_step matrix precond rhs norm_rhs rho_0 k w =
                  Some (Breakdown,
                        with_U U1 (with_v_k_tilde v
                          (with_tag (set_iters (wrap (iters (tag w) + 1)) (tag w)) w)))).
  { unfold inner_step.
    replace (candidate matrix precond k
               (with_tag (set_iters (wrap (iters (tag w) + 1)) (tag w)) w))
      with (Some v) by (rewrite <- Hv; destruct k; reflexivity).
    simpl. rewrite Hu. simpl. rewrite HU1. simpl. rewrite Hr. simpl.
    rewrite Hb. reflexivity. }
  eexists. split; [exact Hstep|].
  split; [cbn [inner_loop]; rewrite Hstep; reflexivity|].
  repeat split.
Qed.


End InnerLoop.

(** ** Every element access stays in range *)

Section Safety.

Context {F : Type} `{Scalar F}.
Variables matrix precond : vec F -> vec F.
Variable rhs : vec F.
Hypothesis matrix_size : size_preserving (problem_size rhs) matrix.
Hypothesis precond_size : size_preserving (problem_size rhs) precond.

Abbreviation n := (problem_size rhs).

Lemma apply_size (v : vec F) : length v = n -> length (precond (matrix v)) = n.
Proof. intros Hv. apply precond_size, matrix_size, Hv. Qed.

Lemma zip_with_length (f : F -> F -> F) (a b : vec F) :
  length a = length b -> length (zip_with f a b) = length a.
Proof.
  revert b; induction a as [|x a IH]; intros [|y b] Hl; simpl in *; try congruence.
  f_equal. apply IH. congruence.
Qed.

Lemma zeros_length (m : nat) : length (zeros (F := F) m) = m.
Proof. apply repeat_length. Qed.

Lemma vscale_length (a : vec F) (s : F) : length (vscale a s) = length a.
Proof. apply length_map. Qed.

Lemma vdiv_length (a : vec F) (s : F) : length (vdiv a s) = length a.
Proof. apply length_map. Qed.

Lemma reflect_length (u v : vec F) :
  length u = length v -> length (reflect u v) = length v.
Proof.
  intros Hl. unfold reflect, vsub. rewrite zip_with_length; [reflexivity|].
  rewrite vscale_length. congruence.
Qed.

Lemma read_in_range {A : Type} (v : list A) (i : nat) :
  i < length v -> exists x, read v i = Some x.
Proof.
  intros Hi. unfold read. destruct (nth_error v i) eqn:E; [eauto|].
  apply nth_error_None in E. lia.
Qed.

Lemma reflect_down_ok (Us : list (vec F)) (m k : nat) (v : vec F) :
  k <= length Us -> Forall (fun u => length u = m) Us -> length v = m ->
  exists v', reflect_down Us k v = Some v' /\ length v' = m.
Proof.
  revert v; induction k as [|i IH]; intros v Hk HUs Hv; simpl.
  - eauto.
  - destruct (read_in_range Us (i := i)) as [u Hu]; [lia|]. rewrite Hu; simpl.
    apply IH; [lia|assumption|].
    rewrite reflect_length; [assumption|].
    rewrite (Forall_read _ HUs Hu). congruence.
Qed.

Lemma reflect_up_ok (Us : list (vec F)) (m i c : nat) (v : vec F) :
  i + c <= length Us -> Forall (fun u => length u = m) Us -> length v = m ->
  exists v', reflect_up Us i c v = Some v' /\ length v' = m.
Proof.
  revert i v; induction c as [|c IH]; intros i v Hk HUs Hv; simpl.
  - eauto.
  - destruct (read_in_range Us (i := i)) as [u Hu]; [lia|]. rewrite Hu; simpl.
    apply IH; [lia|assumption|].
    rewrite reflect_length; [assumption|].
    rewrite (Forall_read _ HUs Hu). congruence.
Qed.

Lemma copy_from_ok (src dest : list F) (i c : nat) :
  i + c <= length src -> i + c <= length dest ->
  exists d, copy_from src dest i c = Some d /\ length d = length dest.
Proof.
  revert i dest; induction c as [|c IH]; intros i dest Hs Hd; simpl.
  - eauto.
  - destruct (read_in_range src (i := i)) as [x Hx]; [lia|]. rewrite Hx; simpl.
    destruct (write_some dest x (i := i)) as [d' Hd']; [lia|]. rewrite Hd'; simpl.
    pose proof (write_length _ _ _ Hd') as Hl.
    destruct (IH (S i) d') as (d & Hc & Hld); [lia|lia|].
    exists d. split; [assumption|congruence].
Qed.

Lemma candidate_ok (kd k : nat) (w : workspace F) :
  well_sized n kd w -> kd <= n -> k <= kd ->
  exists v, candidate matrix precond k w = Some v /\ length v = n.
Proof.
  intros (_ & Hres & Hv & _ & _ & _ & HU & HUs) Hkd Hk.
  destruct k as [|k']; cbn [candidate].
  - eexists; split; [reflexivity|]. apply apply_size. assumption.
  - destruct (write_some (clear (v_k_tilde w)) gpu_scalar_1 (i := k')) as [v0 Hv0].
    { unfold clear. rewrite zeros_length. lia. }
    rewrite Hv0; cbn [bind].
    assert (Hl0 : length v0 = n).
    { rewrite (write_length _ _ _ Hv0). unfold clear. rewrite zeros_length. assumption. }
    destruct (@reflect_down_ok (U w) n (S k') v0) as (v1 & Hv1 & Hl1);
      [lia|assumption|assumption|].
    rewrite Hv1; cbn [bind].
    apply reflect_up_ok; [lia|assumption|].
    apply apply_size. assumption.
Qed.

Lemma start_reflection_ok (k : nat) (v : vec F) :
  length v = n -> k < n ->
  exists u, start_reflection rhs k v = Some u /\ length u = n.
Proof.
  intros Hv Hk. unfold start_reflection, gmres_copy_helper.
  destruct (@copy_from_ok v (zeros n) 0 k) as (u0 & Hu0 & Hl0);
    [lia|rewrite zeros_length; lia|].
  rewrite Hu0; simpl. rewrite zeros_length in Hl0.
  destruct (write_some u0 (fsqrt (fsub (inner_prod v v) (inner_prod u0 u0))) (i := k))
    as [u Hu]; [lia|].
  exists u. split; [assumption|]. rewrite (write_length _ _ _ Hu). assumption.
Qed.

Lemma clamp_ok (k : nat) (r : vec F) (rh : F) :
  k < length r ->
  exists r', clamp k r rh = Some r' /\ length r' = length r.
Proof.
  intros Hk. unfold clamp.
  destruct (read_in_range r Hk) as [x Hx]. rewrite Hx; simpl.
  assert (H1 : exists r1, (if flt rh x then write r k rh else Some r) = Some r1
                          /\ length r1 = length r).
  { destruct (flt rh x); [|eauto].
    destruct (write_some r rh Hk) as [r1 Hr1]. exists r1. split; [assumption|].
    eapply write_length; eauto. }
  destruct H1 as (r1 & Hr1 & Hl1). rewrite Hr1; simpl.
  destruct (read_in_range r1 (i := k)) as [y Hy]; [lia|]. rewrite Hy; simpl.
  destruct (flt y (fneg rh)).
  - destruct (write_some r1 (fneg rh) (i := k)) as [r2 Hr2]; [lia|].
    exists r2. split; [assumption|]. rewrite (write_length _ _ _ Hr2). assumption.
  - eauto.
Qed.

Lemma inner_step_ok (norm_rhs rho_0 : F) (kd k : nat) (w : workspace F) :
  well_sized n kd w -> kd <= n -> k < kd ->
  exists e w',
    inner_step matrix precond rhs norm_rhs rho_0 k w = Some (e, w')
    /\ well_sized n kd w'.
Proof.
  intros Hw Hkd Hk.
  assert (Hw1 : well_sized n kd (with_tag (set_iters (wrap (iters (tag w) + 1)) (tag w)) w))
    by exact Hw.
  unfold inner_step. cbv zeta.
  set (w1 := with_tag (set_iters (wrap (iters (tag w) + 1)) (tag w)) w) in *.
  destruct (@candidate_ok kd k w1 Hw1 Hkd) as (v & Hv & Hlv); [lia|].
  destruct Hw1 as (Hresult & Hres & Hvk & HR & HRs & Hp & HU & HUs).
  mstep Hv.
  destruct (@start_reflection_ok k v Hlv) as (Uk & HUk & HlUk); [lia|].
  mstep HUk.
  destruct (write_some (U w1) Uk (i := k)) as [U1 HU1]; [lia|].
  mstep HU1.
  destruct (read_in_range Uk (i := k)) as [ukk Hukk]; [lia|].
  mstep Hukk.
  assert (HlU1 : length U1 = kd) by (rewrite (write_length _ _ _ HU1); assumption).
  assert (HU1s : Forall (fun u => length u = n) U1)
    by (eapply write_Forall; eauto).
  destruct (flt (ffabs ukk) breakdown_threshold).
  { do 2 eexists. split; [reflexivity|].
    repeat split; wsimpl; assumption. }
  destruct (read_in_range (R_ w1) (i := k)) as [Rk HRk]; [lia|].
  mstep HRk.
  pose proof (Forall_read _ HRs HRk) as HlRk. cbv beta in HlRk.
  destruct (@copy_from_ok Uk Rk 0 (k + 1)) as (Rk' & HRk' & HlRk'); [lia|lia|].
  unfold gmres_copy_helper. mstep HRk'.
  destruct (write_some (R_ w1) Rk' (i := k)) as [R1 HR1]; [lia|].
  mstep HR1.
  set (Uk2 := vscale (vsub Uk v) (fdiv gpu_scalar_minus_1 (norm_2 (vsub Uk v)))).
  assert (HlUk2 : length Uk2 = n).
  { unfold Uk2, vsub. rewrite vscale_length, zip_with_length; congruence. }
  destruct (write_some U1 Uk2 (i := k)) as [U2 HU2]; [lia|].
  mstep HU2.
  assert (Hlr : length (reflect Uk2 (res w1)) = n).
  { rewrite reflect_length; [assumption|congruence]. }
  destruct (@clamp_ok k (reflect Uk2 (res w1)) (rho w1)) as (r & Hr & Hlr'); [lia|].
  mstep Hr.
  destruct (read_in_range r (i := k)) as [x Hx]; [lia|].
  mstep Hx.
  destruct (write_some (projection_rhs w1) x (i := k)) as [p' Hp']; [lia|].
  mstep Hp'.
  destruct (read_in_range p' (i := k)) as [pk Hpk];
    [rewrite (write_length _ _ _ Hp'); lia|].
  mstep Hpk.
  assert (Hfinal : well_sized n kd
            (with_rho (fmul (rho w1) (fsin (facos (fdiv pk (rho w1)))))
               (with_projection_rhs p'
                  (with_res r (with_U U2 (with_R R1 (with_U U1 (with_v_k_tilde v w1)))))))).
  { repeat split; wsimpl; try assumption; try congruence.
    - rewrite (write_length _ _ _ HR1). assumption.
    - eapply write_Forall; eauto. cbv beta. congruence.
    - rewrite (write_length _ _ _ Hp'). assumption.
    - rewrite (write_length _ _ _ HU2). assumption.
    - eapply write_Forall; eauto. }
  destruct (flt _ _); do 2 eexists; (split; [reflexivity|exact Hfinal]).
Qed.

Lemma inner_loop_ok (norm_rhs rho_0 : F) (kd c k : nat) (w : workspace F) :
  well_sized n kd w -> kd <= n -> k + c <= kd ->
  exists k' w',
    inner_loop matrix precond rhs norm_rhs rho_0 c k w = Some (k', w')
    /\ well_sized n kd w' /\ k <= k' <= k + c.
Proof.
  revert k w; induction c as [|c IH]; intros k w Hw Hkd Hk; cbn [inner_loop].
  - exists k, w. split; [reflexivity|]. split; [assumption|lia].
  - destruct (@inner_step_ok norm_rhs rho_0 kd k w Hw Hkd) as (e & w' & Hs & Hw'); [lia|].
    rewrite Hs; cbn [bind].
    destruct e.
    + destruct (IH (S k) w' Hw' Hkd) as (k' & w2 & Hl & Hw2 & Hb); [lia|].
      exists k', w2. split; [assumption|]. split; [assumption|lia].
    + exists k, w'. split; [reflexivity|]. split; [assumption|lia].
    + exists (S k), w'. split; [reflexivity|]. split; [assumption|lia].
Qed.

Lemma eliminate_ok (kd : nat) (Rs : list (list F)) (i j c : nat) (p : list F) :
  length Rs = kd -> Forall (fun r => length r = kd) Rs -> length p = kd ->
  i < kd -> j + c <= kd ->
  exists p', eliminate Rs i j c p = Some p' /\ length p' = kd.
Proof.
  intros HR HRs. revert j p; induction c as [|c IH]; intros j p Hp Hi Hj; cbn [eliminate].
  - eauto.
  - destruct (read_in_range Rs (i := j)) as [Rj HRj]; [lia|]. mstep HRj.
    pose proof (Forall_read _ HRs HRj) as HlRj. cbv beta in HlRj.
    destruct (read_in_range Rj (i := i)) as [rji Hrji]; [lia|]. mstep Hrji.
    destruct (read_in_range p (i := j)) as [pj Hpj]; [lia|]. mstep Hpj.
    destruct (read_in_range p (i := i)) as [pi Hpi]; [lia|]. mstep Hpi.
    destruct (write_some p (fsub pi (fmul rji pj)) (i := i)) as [p' Hp']; [lia|].
    mstep Hp'.
    apply IH; [|assumption|lia].
    rewrite (write_length _ _ _ Hp'). assumption.
Qed.

Lemma back_substitution_ok (kd : nat) (Rs : list (list F)) (k m : nat) (p : list F) :
  length Rs = kd -> Forall (fun r => length r = kd) Rs -> length p = kd ->
  m <= k -> k <= kd ->
  exists p', back_substitution Rs k m p = Some p' /\ length p' = kd.
Proof.
  intros HR HRs. revert p; induction m as [|i IH]; intros p Hp Hm Hk;
    cbn [back_substitution].
  - eauto.
  - destruct (@eliminate_ok kd Rs i (S i) (k - S i) p HR HRs Hp) as (p1 & Hp1 & Hl1);
      [lia|lia|].
    mstep Hp1.
    destruct (read_in_range Rs (i := i)) as [Ri HRi]; [lia|]. mstep HRi.
    pose proof (Forall_read _ HRs HRi) as HlRi. cbv beta in HlRi.
    destruct (read_in_range Ri (i := i)) as [rii Hrii]; [lia|]. mstep Hrii.
    destruct (read_in_range p1 (i := i)) as [pi Hpi]; [lia|]. mstep Hpi.
    destruct (write_some p1 (fdiv pi rii) (i := i)) as [p2 Hp2]; [lia|].
    mstep Hp2.
    apply IH; [|lia|assumption].
    rewrite (write_length _ _ _ Hp2). assumption.
Qed.

Lemma add_coefficients_ok (p : list F) (i c : nat) (r : vec F) :
  i + c <= length r -> (c = 0 \/ i + c < length p) ->
  exists r', add_coefficients p i c r = Some r' /\ length r' = length r.
Proof.
  revert i r; induction c as [|c IH]; intros i r Hr Hp; cbn [add_coefficients].
  - eauto.
  - destruct (read_in_range r (i := i)) as [x Hx]; [lia|]. mstep Hx.
    destruct (read_in_range p (i := S i)) as [y Hy]; [lia|]. mstep Hy.
    destruct (write_some r (fadd x y) (i := i)) as [r' Hr']; [lia|]. mstep Hr'.
    pose proof (write_length _ _ _ Hr') as Hl.
    destruct (IH (S i) r') as (r2 & Hr2 & Hl2); [lia|lia|].
    exists r2. split; [assumption|congruence].
Qed.

Lemma reconstruct_ok (rho_0 : F) (kd k : nat) (w : workspace F) :
  well_sized n kd w -> 0 < kd -> kd <= n -> k <= kd ->
  exists w', reconstruct rho_0 k w = Some w' /\ well_sized n kd w'.
Proof.
  intros (Hresult & Hres & Hvk & HR & HRs & Hp & HU & HUs) Hpos Hkd Hk.
  unfold reconstruct.
  destruct (read_in_range (projection_rhs w) (i := 0)) as [c0 Hc0]; [lia|]. mstep Hc0.
  assert (H1 : exists r, (if (0 <? k)%nat
                          then add_coefficients (projection_rhs w) 0 (k - 1)
                                 (vscale (res w) c0)
                          else Some (vscale (res w) c0)) = Some r
                         /\ length r = n).
  { destruct (0 <? k)%nat eqn:E.
    - apply Nat.ltb_lt in E.
      destruct (@add_coefficients_ok (projection_rhs w) 0 (k - 1) (vscale (res w) c0))
        as (r & Hr & Hl); [rewrite vscale_length; lia|lia|].
      exists r. split; [assumption|]. rewrite Hl, vscale_length. assumption.
    - eexists. split; [reflexivity|]. rewrite vscale_length. assumption. }
  destruct H1 as (r & Hr & Hlr). mstep Hr.
  destruct (@reflect_down_ok (U w) n k r) as (r' & Hr' & Hlr'); [lia|assumption|assumption|].
  mstep Hr'.
  eexists. split; [reflexivity|].
  repeat split; wsimpl; try assumption.
  - unfold vadd. rewrite zip_with_length; [assumption|].
    rewrite vscale_length. congruence.
  - rewrite vscale_length. assumption.
Qed.

Lemma finish_cycle_ok (norm_rhs rho_0 : F) (kd k : nat) (w : workspace F) :
  well_sized n kd w -> 0 < kd -> kd <= n -> k <= kd ->
  exists b w', finish_cycle norm_rhs rho_0 k w = Some (b, w') /\ well_sized n kd w'.
Proof.
  intros Hw Hpos Hkd Hk. unfold finish_cycle.
  pose proof Hw as (Hresult & Hres & Hvk & HR & HRs & Hp & HU & HUs).
  destruct (@back_substitution_ok kd (R_ w) k k (projection_rhs w) HR HRs Hp)
    as (p & Hbs & Hlp); [lia|assumption|].
  mstep Hbs.
  destruct (@reconstruct_ok rho_0 kd k (with_projection_rhs p w)) as (w' & Hw' & Hs');
    [repeat split; wsimpl; assumption|assumption|assumption|assumption|].
  mstep Hw'. cbv zeta.
  destruct (flt _ _); do 2 eexists; (split; [reflexivity|exact Hs']).
Qed.

Lemma initial_residual_length (x : vec F) :
  length x = n -> length (initial_residual matrix precond rhs x) = n.
Proof.
  intros Hx. unfold initial_residual, vsub.
  apply precond_size. rewrite zip_with_length; [reflexivity|].
  rewrite matrix_size by exact Hx. reflexivity.
Qed.

Lemma enter_inner_sized (kd : nat) (rho_0 : F) (w : workspace F) :
  cycle_sized n kd w -> well_sized n kd (enter_inner matrix precond rhs kd rho_0 w).
Proof.
  intros (Hresult & Hvk & Hp). unfold enter_inner.
  repeat split; wsimpl; try assumption.
  - rewrite vdiv_length. apply initial_residual_length. assumption.
  - apply repeat_length.
  - apply Forall_forall. intros r Hr. apply repeat_spec in Hr. subst. apply zeros_length.
  - apply repeat_length.
  - apply Forall_forall. intros r Hr. apply repeat_spec in Hr. subst. apply zeros_length.
Qed.

Lemma well_sized_cycle_sized (kd : nat) (w : workspace F) :
  well_sized n kd w -> cycle_sized n kd w.
Proof.
  intros (Hresult & Hres & Hvk & HR & HRs & Hp & HU & HUs). repeat split; assumption.
Qed.

Lemma restart_cycle_ok (norm_rhs : F) (kd : nat) (w : workspace F) :
  cycle_sized n kd w -> 0 < kd -> kd <= n ->
  exists b w',
    restart_cycle matrix precond rhs norm_rhs kd w = Some (b, w')
    /\ cycle_sized n kd w'.
Proof.
  intros Hw Hpos Hkd. unfold restart_cycle. cbv zeta.
  destruct (_ || _).
  - do 2 eexists. split; [reflexivity|]. exact Hw.
  - set (rho_0 := norm_2 (initial_residual matrix precond rhs (result w))).
    destruct (@inner_loop_ok norm_rhs rho_0 kd kd 0
                (enter_inner matrix precond rhs kd rho_0 w))
      as (k & w1 & Hl & Hw1 & Hk); [apply enter_inner_sized; assumption|assumption|lia|].
    mstep Hl.
    destruct (@finish_cycle_ok norm_rhs rho_0 kd k w1 Hw1 Hpos Hkd) as (b & w2 & Hf & Hw2);
      [lia|].
    exists b, w2. split; [assumption|]. apply well_sized_cycle_sized. assumption.
Qed.

Lemma restart_loop_ok (norm_rhs : F) (kd c : nat) (w : workspace F) :
  cycle_sized n kd w -> 0 < kd -> kd <= n ->
  exists w',
    restart_loop matrix precond rhs norm_rhs kd c w = Some w' /\ cycle_sized n kd w'.
Proof.
  intros Hw Hpos Hkd. revert w Hw; induction c as [|c IH]; intros w Hw; cbn [restart_loop].
  - eauto.
  - destruct (@restart_cycle_ok norm_rhs kd w Hw Hpos Hkd) as (b & w' & Hc & Hw').
    mstep Hc. destruct b; [eauto|]. apply IH. assumption.
Qed.

Lemma wrap_succ (a : Z) : wrap (wrap a + 1) = wrap (a + 1).
Proof. unfold wrap, uint_modulus. apply Zplus_mod_idemp_l. Qed.

Lemma inner_step_iters (norm_rhs rho_0 : F) (k : nat) (w w' : workspace F) (e : step_exit) :
  inner_step matrix precond rhs norm_rhs rho_0 k w = Some (e, w') ->
  iters (tag w') = wrap (iters (tag w) + 1).
Proof.
  unfold inner_step. cbv zeta. intros Hs.
  bind_inv Hs. wsimpl.
  destruct (flt (ffabs _) breakdown_threshold).
  - inversion Hs; subst. reflexivity.
  - bind_inv Hs. wsimpl.
    destruct (flt _ _); inversion Hs; subst; reflexivity.
Qed.

Lemma inner_loop_iters (norm_rhs rho_0 : F) (c k k' : nat) (w w' : workspace F) :
  inner_loop matrix precond rhs norm_rhs rho_0 c k w = Some (k', w') ->
  exists s, s <= c /\ wrap (iters (tag w')) = wrap (iters (tag w) + Z.of_nat s).
Proof.
  revert k w; induction c as [|c IH]; intros k w Hl; cbn [inner_loop] in Hl.
  - inversion Hl; subst. exists 0. split; [lia|]. f_equal. simpl. lia.
  - destruct (inner_step matrix precond rhs norm_rhs rho_0 k w) as [[e w1]|] eqn:Hs;
      cbn [bind] in Hl; [|discriminate].
    pose proof (inner_step_iters _ _ _ _ Hs) as Hi.
    destruct e.
    + destruct (IH _ _ Hl) as (s & Hs' & Hw). exists (S s). split; [lia|].
      rewrite Hw, Hi. unfold wrap, uint_modulus.
      rewrite Zplus_mod_idemp_l. f_equal. lia.
    + inversion Hl; subst. exists 1. split; [lia|].
      rewrite Hi. unfold wrap, uint_modulus. rewrite Zmod_mod. reflexivity.
    + inversion Hl; subst. exists 1. split; [lia|].
      rewrite Hi. unfold wrap, uint_modulus. rewrite Zmod_mod. reflexivity.
Qed.

Lemma krylov_dim_used_min (t : gmres_tag F) :
  (0 <= krylov_dim t)%Z ->
  krylov_dim_used rhs t = Nat.min (Z.to_nat (krylov_dim t)) n.
Proof.
  intros Hk. unfold krylov_dim_used.
  destruct (Z.ltb_spec (Z.of_nat n) (krylov_dim t)); lia.
Qed.

(** C7.  For a matrix and a preconditioner that keep the dimension of their
    argument, a non-empty [rhs] and a configured Krylov dimension above zero:
    the basis size in use is [min(krylov_dim, problem_size)], which is
    [problem_size] when [problem_size < krylov_dim]; [solve] then returns
    a vector of [problem_size] entries, which in this embedding means that
    every checked element access ([U[k][k]], [res[k]], [v_k_tilde[k-1]],
    [R[j][i]], [projection_rhs[i]], ...) was in range; and an inner loop runs
    at most [problem_size] steps, ending with a counter [k] of at most the
    basis size. *)
Theorem solve_stays_in_range (t : gmres_tag F) :
  0 < n -> (0 < krylov_dim t)%Z ->
  let kd := krylov_dim_used rhs t in
  kd = Nat.min (Z.to_nat (krylov_dim t)) n
  /\ ((Z.of_nat n < krylov_dim t)%Z -> kd = n)
  /\ (exists x t', solve matrix precond rhs t = Some (x, t') /\ length x = n)
  /\ (forall norm_rhs rho_0 w, well_sized n kd w ->
        exists k w' s,
          inner_loop matrix precond rhs norm_rhs rho_0 kd 0 w = Some (k, w')
          /\ k <= kd /\ kd <= n /\ s <= n
          /\ wrap (iters (tag w')) = wrap (iters (tag w) + Z.of_nat s)
          /\ well_sized n kd w').
Proof.
  intros Hn Hk kd.
  assert (Hmin : kd = Nat.min (Z.to_nat (krylov_dim t)) n)
    by (apply krylov_dim_used_min; lia).
  assert (Hpos : 0 < kd) by lia.
  assert (Hle : kd <= n) by lia.
  split; [exact Hmin|]. split; [lia|]. split.
  - unfold solve.
    destruct (feq (norm_2 rhs) zero).
    + do 2 eexists. split; [reflexivity|]. apply zeros_length.
    + assert (Hmr : exists mr, max_restarts t = Some mr).
      { unfold max_restarts. unfold krylov_dim in Hk.
        destruct (Z.eqb_spec (krylov_dim_ t) 0); [lia|].
        destruct (_ && _); eauto. }
      destruct Hmr as [mr Hmr]. mstep Hmr.
      destruct (@restart_loop_ok (norm_2 rhs) kd (S (Z.to_nat mr)) (initial_workspace rhs t))
        as (w' & Hl & Hw'); [|assumption|assumption|].
      { repeat split; cbn [initial_workspace result v_k_tilde projection_rhs];
          apply zeros_length. }
      fold kd. mstep Hl.
      do 2 eexists. split; [reflexivity|]. apply Hw'.
  - intros norm_rhs rho_0 w Hw.
    destruct (@inner_loop_ok norm_rhs rho_0 kd kd 0 w Hw Hle) as (k & w' & Hl & Hw' & Hb);
      [lia|].
    destruct (inner_loop_iters _ _ _ _ _ Hl) as (s & Hs & Hi).
    exists k, w', s.
    split; [exact Hl|]. split; [lia|]. split; [lia|]. split; [lia|].
    split; [exact Hi|exact Hw'].
Qed.

End Safety.

(** ** The recorded error *)

Section RecordedError.

Context {F : Type} `{Scalar F}.
Variables matrix precond : vec F -> vec F.
Variable rhs : vec F.

Lemma restart_loop_succ (norm_rhs : F) (kd c : nat) (w : workspace F) :
  restart_loop matrix precond rhs norm_rhs kd (S c) w =
  (bw <- restart_cycle matrix precond rhs norm_rhs kd w ;;
   if fst bw then Some (snd bw) else restart_loop matrix precond rhs norm_rhs kd c (snd bw)).
Proof. reflexivity. Qed.

Lemma cycles_then_loop (norm_rhs : F) (kd m c : nat) (w w1 : workspace F) :
  cycles matrix precond rhs norm_rhs kd m w w1 ->
  restart_loop matrix precond rhs norm_rhs kd (m + c) w =
  restart_loop matrix precond rhs norm_rhs kd c w1.
Proof.
  induction 1 as [w|m w w1 w2 Hc _ IH]; [reflexivity|].
  cbn [Nat.add restart_loop]. rewrite Hc. cbn [bind fst snd]. exact IH.
Qed.

Lemma restart_cycle_error (norm_rhs : F) (kd : nat) (w w' : workspace F) (b : bool) :
  restart_cycle matrix precond rhs norm_rhs kd w = Some (b, w') ->
  let rho_0 := norm_2 (initial_residual matrix precond rhs (result w)) in
  if flt (fdiv rho_0 norm_rhs) (tolerance (tag w)) || feq norm_rhs zero
  then b = true /\ error (tag w') = fdiv rho_0 norm_rhs /\ result w' = result w
  else b = flt (ffabs (fdiv (fmul (rho w') rho_0) norm_rhs)) (tolerance (tag w'))
       /\ error (tag w') =
            (if b then ffabs (fdiv (fmul (rho w') rho_0) norm_rhs)
             else ffabs (fmul (rho w') rho_0)).
Proof.
  unfold restart_cycle. cbv zeta. intros Hc.
  destruct (_ || _).
  - inversion Hc; subst. repeat split.
  - bind_inv Hc. unfold finish_cycle in Hc. bind_inv Hc. cbv zeta in Hc.
    unfold tolerance, error in *.
    destruct (flt _ _) eqn:Ht; inversion Hc; subst; wsimpl;
      cbn [set_error tol_ last_error_]; rewrite Ht; split; reflexivity.
Qed.

(** C8.  Take a run of [solve] on a right-hand side of non-zero norm, and
    its last restart cycle, entered in the state [w_last] after [m] cycles
    that did not return.  That cycle either returns ([b = true]) or is the
    cycle number [max_restarts()+1] and the loop ends.  [solve] returns the
    solution accumulated so far, and the recorded error is: [rho_0/norm_rhs]
    when the test at the start of the cycle succeeds;
    [|rho*rho_0/norm_rhs|] when the test at its end succeeds; and
    [|rho*rho_0|], not divided by [norm_rhs], when no test succeeded and the
    restart budget is used up. *)
Theorem recorded_error_by_exit (t : gmres_tag F) (mr : Z) (m : nat)
    (w_last w_end : workspace F) (b : bool) :
  feq (norm_2 rhs) zero = false ->
  max_restarts t = Some mr ->
  m <= Z.to_nat mr ->
  cycles matrix precond rhs (norm_2 rhs) (krylov_dim_used rhs t) m
    (initial_workspace rhs t) w_last ->
  restart_cycle matrix precond rhs (norm_2 rhs) (krylov_dim_used rhs t) w_last
    = Some (b, w_end) ->
  b = true \/ m = Z.to_nat mr ->
  let norm_rhs := norm_2 rhs in
  let rho_0 := norm_2 (initial_residual matrix precond rhs (result w_last)) in
  solve matrix precond rhs t = Some (result w_end, tag w_end)
  /\ (if flt (fdiv rho_0 norm_rhs) (tolerance (tag w_last)) || feq norm_rhs zero
      then b = true /\ error (tag w_end) = fdiv rho_0 norm_rhs
      else b = flt (ffabs (fdiv (fmul (rho w_end) rho_0) norm_rhs)) (tolerance (tag w_end))
           /\ error (tag w_end) =
                (if b then ffabs (fdiv (fmul (rho w_end) rho_0) norm_rhs)
                 else ffabs (fmul (rho w_end) rho_0))).
Proof.
  intros Hz Hmr Hm Hcs Hc Hlast norm_rhs rho_0.
  split.
  - unfold solve. rewrite Hz, Hmr. cbn [bind].
    replace (S (Z.to_nat mr)) with (m + S (Z.to_nat mr - m)) by lia.
    rewrite (cycles_then_loop _ Hcs). cbn [restart_loop]. rewrite Hc. cbn [bind fst snd].
    destruct b; [reflexivity|].
    destruct Hlast as [Hb|Hb]; [discriminate|].
    replace (Z.to_nat mr - m) with 0 by lia. reflexivity.
  - pose proof (restart_cycle_error _ _ _ Hc) as He. cbv zeta in He.
    fold norm_rhs rho_0 in He.
    destruct (_ || _).
    + destruct He as (Hb & He & _). split; assumption.
    + exact He.
Qed.

End RecordedError.

(** ** The run outputs are written anew *)

Section OutputsOverwritten.

Context {F : Type} `{Scalar F}.
Variables matrix precond : vec F -> vec F.
Variable rhs : vec F.

Ltac same_but_error Hf :=
  match type of Hf with
  | forget_error ?a = forget_error ?b =>
      destruct a as [x1 r1 v1 Rs1 p1 Us1 rh1 [tl1 mi1 kd1 it1 er1]];
      destruct b as [x2 r2 v2 Rs2 p2 Us2 rh2 [tl2 mi2 kd2 it2 er2]];
      unfold forget_error in Hf; cbn in Hf; inversion Hf; subst; clear Hf
  end.

Ltac fields :=
  cbn [bind option_map fst snd result res v_k_tilde R_ projection_rhs U rho tag
       with_result with_res with_v_k_tilde with_R with_projection_rhs
       with_U with_rho with_tag tolerance iters error set_iters set_error
       tol_ iterations_ krylov_dim_ iters_taken_ last_error_].

Ltac run_both :=
  fields;
  repeat match goal with
         | |- context [bind ?m _] => destruct m; fields
         | |- context [if ?c then _ else _] => destruct c; fields
         end.

Lemma set_error_forget (e : F) (a b : workspace F) :
  forget_error a = forget_error b ->
  with_tag (set_error e (tag a)) a = with_tag (set_error e (tag b)) b.
Proof. intros Hf. same_but_error Hf. reflexivity. Qed.

Lemma inner_step_forget (norm_rhs rho_0 : F) (k : nat) (a b : workspace F) :
  forget_error a = forget_error b ->
  option_map (fun xw => (fst xw, forget_error (snd xw)))
    (inner_step matrix precond rhs norm_rhs rho_0 k a) =
  option_map (fun xw => (fst xw, forget_error (snd xw)))
    (inner_step matrix precond rhs norm_rhs rho_0 k b).
Proof.
  intros Hf. same_but_error Hf.
  unfold inner_step. cbv zeta.
  destruct k; cbn [candidate]; run_both; reflexivity.
Qed.

Lemma inner_loop_forget (norm_rhs rho_0 : F) (c k : nat) (a b : workspace F) :
  forget_error a = forget_error b ->
  option_map (fun kw => (fst kw, forget_error (snd kw)))
    (inner_loop matrix precond rhs norm_rhs rho_0 c k a) =
  option_map (fun kw => (fst kw, forget_error (snd kw)))
    (inner_loop matrix precond rhs norm_rhs rho_0 c k b).
Proof.
  revert k a b; induction c as [|c IH]; intros k a b Hf; cbn [inner_loop].
  - cbn [option_map fst snd]. rewrite Hf. reflexivity.
  - pose proof (inner_step_forget norm_rhs rho_0 k Hf) as Hs.
    destruct (inner_step matrix precond rhs norm_rhs rho_0 k a) as [[e1 a1]|];
      destruct (inner_step matrix precond rhs norm_rhs rho_0 k b) as [[e2 b1]|];
      cbn [option_map fst snd] in Hs; try discriminate; [|reflexivity].
    assert (He : e1 = e2) by congruence.
    assert (Hfw : forget_error a1 = forget_error b1) by congruence.
    clear Hs. subst e1. cbn [bind].
    destruct e2; cbn [option_map fst snd]; [apply IH; exact Hfw| |]; rewrite Hfw; reflexivity.
Qed.

Lemma reconstruct_forget (rho_0 : F) (k : nat) (a b : workspace F) :
  forget_error a = forget_error b ->
  option_map forget_error (reconstruct rho_0 k a) =
  option_map forget_error (reconstruct rho_0 k b).
Proof.
  intros Hf. same_but_error Hf.
  unfold reconstruct. cbv zeta.
  run_both; reflexivity.
Qed.

Lemma finish_cycle_forget (norm_rhs rho_0 : F) (k : nat) (a b : workspace F) :
  forget_error a = forget_error b ->
  finish_cycle norm_rhs rho_0 k a = finish_cycle norm_rhs rho_0 k b.
Proof.
  intros Hf.
  assert (HR : R_ a = R_ b) by (same_but_error Hf; reflexivity).
  assert (Hp : projection_rhs a = projection_rhs b) by (same_but_error Hf; reflexivity).
  unfold finish_cycle. rewrite HR, Hp.
  destruct (back_substitution (R_ b) k k (projection_rhs b)) as [p|]; [|reflexivity].
  cbn [bind].
  assert (Hw : forget_error (with_projection_rhs p a) =
               forget_error (with_projection_rhs p b))
    by (same_but_error Hf; reflexivity).
  pose proof (reconstruct_forget rho_0 k Hw) as Hr.
  destruct (reconstruct rho_0 k (with_projection_rhs p a)) as [a1|];
    destruct (reconstruct rho_0 k (with_projection_rhs p b)) as [b1|];
    cbn [option_map] in Hr; try discriminate; [|reflexivity].
  assert (Hfw : forget_error a1 = forget_error b1) by congruence.
  clear Hr. cbn [bind]. cbv zeta.
  assert (Hrho : rho a1 = rho b1) by (same_but_error Hfw; reflexivity).
  assert (Htol : tolerance (tag a1) = tolerance (tag b1))
    by (same_but_error Hfw; reflexivity).
  rewrite Hrho, Htol.
  destruct (flt _ _); f_equal; f_equal; apply set_error_forget; exact Hfw.
Qed.

Lemma restart_cycle_forget (norm_rhs : F) (kd : nat) (a b : workspace F) :
  forget_error a = forget_error b ->
  restart_cycle matrix precond rhs norm_rhs kd a =
  restart_cycle matrix precond rhs norm_rhs kd b.
Proof.
  intros Hf.
  assert (Hres : result a = result b) by (same_but_error Hf; reflexivity).
  assert (Htol : tolerance (tag a) = tolerance (tag b)) by (same_but_error Hf; reflexivity).
  unfold restart_cycle. cbv zeta. rewrite Hres, Htol.
  destruct (_ || _).
  - f_equal. f_equal. same_but_error Hf. reflexivity.
  - set (rho_0 := norm_2 (initial_residual matrix precond rhs (result b))).
    assert (He : forget_error (enter_inner matrix precond rhs kd rho_0 a) =
                 forget_error (enter_inner matrix precond rhs kd rho_0 b)).
    { unfold enter_inner. rewrite Hres. same_but_error Hf. reflexivity. }
    pose proof (inner_loop_forget norm_rhs rho_0 kd 0 He) as Hl.
    destruct (inner_loop matrix precond rhs norm_rhs rho_0 kd 0 _) as [[k1 a1]|];
      destruct (inner_loop matrix precond rhs norm_rhs rho_0 kd 0 _) as [[k2 b1]|];
      cbn [option_map fst snd] in Hl; try discriminate; [|reflexivity].
    assert (Hk : k1 = k2) by congruence.
    assert (Hfw : forget_error a1 = forget_error b1) by congruence.
    clear Hl. subst k1. cbn [bind fst snd].
    apply finish_cycle_forget. exact Hfw.
Qed.

(** What holds of C9: for a right-hand side of non-zero norm, [solve]
    resets the iteration count and writes the error on every path, so the
    result and both outputs are the same from any two configuration objects
    with the same tolerance, iteration budget and Krylov dimension, whatever
    their outputs held before. *)
Lemma solve_overwrites_outputs (t1 t2 : gmres_tag F) :
  tol_ t1 = tol_ t2 -> iterations_ t1 = iterations_ t2 -> krylov_dim_ t1 = krylov_dim_ t2 ->
  feq (norm_2 rhs) zero = false ->
  solve matrix precond rhs t1 = solve matrix precond rhs t2.
Proof.
  intros Htol Hmi Hkd Hz.
  destruct t1 as [tl1 mi1 kd1 it1 er1]; destruct t2 as [tl2 mi2 kd2 it2 er2].
  cbn in Htol, Hmi, Hkd. subst.
  unfold solve. rewrite Hz.
  change (max_restarts (Build_tag tl2 mi2 kd2 it1 er1))
    with (max_restarts (Build_tag tl2 mi2 kd2 it2 er2)).
  destruct (max_restarts _) as [mr|]; [|reflexivity]. cbn [bind].
  change (krylov_dim_used rhs (Build_tag tl2 mi2 kd2 it1 er1))
    with (krylov_dim_used rhs (Build_tag tl2 mi2 kd2 it2 er2)).
  rewrite !restart_loop_succ.
  rewrite (@restart_cycle_forget (norm_2 rhs) _
             (initial_workspace rhs (Build_tag tl2 mi2 kd2 it1 er1))
             (initial_workspace rhs (Build_tag tl2 mi2 kd2 it2 er2))) by reflexivity.
  reflexivity.
Qed.

End OutputsOverwritten.

(** ** The triangular solve *)

Section TriangularSolve.

Context {F : Type} `{Scalar F}.

Lemma sub_range_ext (f g : nat -> F) (x : F) (a c : nat) :
  (forall y, a <= y < a + c -> f y = g y) -> sub_range f x a c = sub_range g x a c.
Proof.
  revert a x; induction c as [|c IH]; intros a x Hfg; cbn [sub_range]; [reflexivity|].
  rewrite (Hfg a) by lia. apply IH. intros y Hy. apply Hfg. lia.
Qed.

Lemma eliminate_rows (Rs : list (list F)) (i j c : nat) (p p' : list F) :
  i < j ->
  eliminate Rs i j c p = Some p' ->
  (forall l, l <> i -> nth l p' zero = nth l p zero)
  /\ nth i p' zero =
       sub_range (fun x => fmul (entry Rs x i) (nth x p zero)) (nth i p zero) j c.
Proof.
  revert j p; induction c as [|c IH]; intros j p Hij He; cbn [eliminate sub_range] in *.
  - inversion He; subst. split; reflexivity.
  - bind_inv He.
    pose proof He as Hrec. apply IH in Hrec; [|lia].
    destruct Hrec as (Hother & Hi).
    pose proof (fun y Hy => nth_write_other zero _ _ (j := y) E3 Hy) as Hw.
    split.
    + intros y Hy. rewrite Hother, Hw by assumption. reflexivity.
    + rewrite Hi. rewrite (nth_write_same zero _ _ _ E3).
      assert (Hd : entry Rs j i = f).
      { unfold entry. rewrite (read_nth [] _ _ E). apply (read_nth zero _ _ E0). }
      rewrite Hd, (read_nth zero _ _ E1), (read_nth zero _ _ E2).
      apply sub_range_ext. intros y Hy. cbv beta. rewrite Hw by lia. reflexivity.
Qed.

(** In any arithmetic, also a rounding one: row [i] of the result is the
    entry of [p] less the products [R[j][i]*c[j]], [j = i+1, ..., k-1], one
    after the other, divided by [R[i][i]]. *)
Lemma back_substitution_rows (Rs : list (list F)) (k m : nat) (p c : list F) :
  m <= k ->
  back_substitution Rs k m p = Some c ->
  (forall l, m <= l -> nth l c zero = nth l p zero)
  /\ (forall i, i < m ->
        nth i c zero =
        fdiv (sub_range (fun j => fmul (entry Rs j i) (nth j c zero))
                (nth i p zero) (S i) (k - S i))
             (entry Rs i i)).
Proof.
  revert p; induction m as [|i IH]; intros p Hm Hb; cbn [back_substitution] in Hb.
  - inversion Hb; subst. split; [reflexivity|]. intros i Hi. lia.
  - bind_inv Hb.
    pose proof E as Hel. apply eliminate_rows in Hel; [|lia].
    destruct Hel as (He_other & He_i).
    pose proof Hb as Hrec. apply IH in Hrec; [|lia].
    destruct Hrec as (Hfix & Hrows).
    pose proof (fun x Hx => nth_write_other zero _ _ (j := x) E3 Hx) as Hw.
    assert (Hup : forall x, i < x -> nth x c zero = nth x p zero).
    { intros x Hx. rewrite Hfix, Hw, He_other by lia. reflexivity. }
    split.
    + intros x Hx. apply Hup. lia.
    + intros x Hx. destruct (Nat.eq_dec x i) as [->|Hne].
      * rewrite Hfix by lia. rewrite (nth_write_same zero _ _ _ E3).
        rewrite <- (read_nth zero _ _ E2), He_i.
        assert (Hd : entry Rs i i = f).
        { unfold entry. rewrite (read_nth [] _ _ E0). apply (read_nth zero _ _ E1). }
        rewrite Hd. f_equal. apply sub_range_ext. intros y Hy. cbv beta.
        rewrite Hup by lia. reflexivity.
      * rewrite Hrows by lia. rewrite Hw, He_other by lia. reflexivity.
Qed.

End TriangularSolve.

(** ** Exact arithmetic *)

Section ExactArithmetic.

Context {F : Type} `{Scalar F}.

(** The scalars form a commutative ring in which division undoes
    multiplication; the real numbers do, floating-point numbers do not. *)
Hypothesis F_ring : ring_theory zero gpu_scalar_1 fadd fmul fsub fneg (@eq F).
Hypothesis F_div : forall a b : F, b <> zero -> fmul (fdiv a b) b = a.

Add Ring F_ring_structure : F_ring.

Lemma sub_range_sum (f : nat -> F) (x : F) (a c : nat) :
  sub_range f x a c = fsub x (sum_range f a c).
Proof.
  revert a x; induction c as [|c IH]; intros a x; cbn [sub_range sum_range].
  - ring.
  - rewrite IH. ring.
Qed.

(** What holds of C5 in exact arithmetic, which no scalar type of the code
    has.  For a [kd x kd] table [R], a [projection_rhs] [p] of [kd] entries
    and an effective size [k <= kd] with [R[i][i]] non-zero for every
    [i < k], the back-substitution returns coefficients [c] in place of
    [p]: entries from [k] on are untouched, every [i < k] has
    [c[i] = (p[i] - sum_{j=i+1..k-1} R[j][i]*c[j]) / R[i][i]], and the
    upper-triangular system in transposed storage holds,
    [sum_{j=i..k-1} R[j][i]*c[j] = p[i]]. *)
Theorem back_substitution_solves (kd : nat) (Rs : list (list F)) (p : list F) (k : nat) :
  length Rs = kd -> Forall (fun r => length r = kd) Rs -> length p = kd ->
  k <= kd ->
  (forall i, i < k -> entry Rs i i <> zero) ->
  exists c,
    back_substitution Rs k k p = Some c
    /\ length c = length p
    /\ (forall i, k <= i -> nth i c zero = nth i p zero)
    /\ (forall i, i < k ->
          nth i c zero =
          fdiv (fsub (nth i p zero)
                  (sum_range (fun j => fmul (entry Rs j i) (nth j c zero)) (S i) (k - S i)))
               (entry Rs i i))
    /\ (forall i, i < k ->
          sum_range (fun j => fmul (entry Rs j i) (nth j c zero)) i (k - i) = nth i p zero).
Proof.
  intros HR HRs Hp Hk Hdiag.
  destruct (@back_substitution_ok F _ kd Rs k k p HR HRs Hp) as (c & Hb & Hl); [lia|lia|].
  pose proof Hb as Hspec. apply back_substitution_rows in Hspec; [|lia].
  destruct Hspec as (Hfix & Hrows0).
  assert (Hrows : forall i, i < k ->
            nth i c zero =
            fdiv (fsub (nth i p zero)
                    (sum_range (fun j => fmul (entry Rs j i) (nth j c zero)) (S i) (k - S i)))
                 (entry Rs i i)).
  { intros i Hi. rewrite (Hrows0 i Hi), sub_range_sum. reflexivity. }
  exists c. split; [exact Hb|]. split; [congruence|].
  split; [exact Hfix|]. split; [exact Hrows|].
  intros i Hi.
  replace (k - i) with (S (k - S i)) by lia. cbn [sum_range].
  rewrite (Hrows i Hi) at 1.
  set (S := sum_range _ (S i) (k - S i)).
  transitivity (fadd (fmul (fdiv (fsub (nth i p zero) S) (entry Rs i i)) (entry Rs i i)) S);
    [ring|].
  rewrite F_div by (apply Hdiag; exact Hi). ring.
Qed.

Lemma vscale_zero_r (a : vec F) : vscale a zero = zeros (length a).
Proof.
  induction a as [|x a IH]; [reflexivity|].
  unfold vscale, zeros in *. cbn [map length repeat]. rewrite IH. f_equal. ring.
Qed.

Lemma vscale_zeros (m : nat) (s : F) : vscale (zeros m) s = zeros m.
Proof.
  induction m as [|m IH]; [reflexivity|].
  unfold vscale, zeros in *. cbn [map repeat]. rewrite IH. f_equal. ring.
Qed.

Lemma vadd_zeros (a : vec F) : vadd a (zeros (length a)) = a.
Proof.
  induction a as [|x a IH]; [reflexivity|].
  unfold vadd, zeros in *. cbn [length repeat zip_with]. rewrite IH. f_equal. ring.
Qed.

(** What holds of C10 in exact arithmetic, which no scalar type of the code
    has.  Take a restart cycle that does not return at its start and whose
    first inner step ([k = 0]) breaks down.  The cycle leaves
    [projection_rhs] as it found it (it is neither zero-filled when the
    cycle starts nor written), and the correction added to [result] is the
    normalised residual times the entry [projection_rhs[0]] found, times
    [rho_0].  When that entry is zero the correction is the zero vector and
    [result] is unchanged; in the first cycle of [solve] it is zero, as
    [projection_rhs] still has the value it was allocated with. *)
Theorem first_step_breakdown_adds_nothing (matrix precond : vec F -> vec F)
    (rhs : vec F) (t : gmres_tag F) (norm_rhs : F) (w : workspace F) :
  size_preserving (problem_size rhs) matrix ->
  size_preserving (problem_size rhs) precond ->
  let kd := krylov_dim_used rhs t in
  let r0 := initial_residual matrix precond rhs (result w) in
  let rho_0 := norm_2 r0 in
  let v := precond (matrix (vdiv r0 rho_0)) in
  let z := zeros (problem_size rhs) in
  0 < kd ->
  cycle_sized (problem_size rhs) kd w ->
  flt (fdiv rho_0 norm_rhs) (tolerance (tag w)) || feq norm_rhs zero = false ->
  flt (ffabs (fsqrt (fsub (inner_prod v v) (inner_prod z z)))) breakdown_threshold = true ->
  exists b w',
    restart_cycle matrix precond rhs norm_rhs kd w = Some (b, w')
    /\ projection_rhs w' = projection_rhs w
    /\ result w' =
        vadd (result w)
          (vscale (vscale (vdiv r0 rho_0) (nth 0 (projection_rhs w) zero)) rho_0)
    /\ (nth 0 (projection_rhs w) zero = zero -> result w' = result w)
    /\ (w = initial_workspace rhs t -> result w' = result w).
Proof.
  intros Hm Hp kd r0 rho_0 v z Hkd Hw Hstart Hbreak.
  assert (Hle : kd <= problem_size rhs).
  { unfold kd, krylov_dim_used. destruct (Z.ltb_spec (Z.of_nat (problem_size rhs)) (krylov_dim t)); lia. }
  assert (Hfirst : nth 0 (projection_rhs (initial_workspace rhs t)) zero = zero).
  { unfold initial_workspace. cbn [projection_rhs]. fold kd.
    destruct kd; [lia|reflexivity]. }
  pose proof (@enter_inner_sized F _ matrix precond rhs Hm Hp kd rho_0 w Hw) as Hsized.
  set (w0 := enter_inner matrix precond rhs kd rho_0 w) in *.
  destruct Hsized as (Hresult & Hres & Hvk & HR & HRs & Hpl & HU & HUs).
  destruct kd as [|kd'] eqn:Ekd; [lia|].
  destruct (@breakdown_step F _ matrix precond rhs norm_rhs rho_0 kd' 0 w0 v z)
    as (w1 & _ & Hloop & HR1 & Hp1 & Hres1 & Hrho1 & Hresult1 & _ & _).
  { reflexivity. }
  { reflexivity. }
  { unfold z. rewrite zeros_length. lia. }
  { lia. }
  { exact Hbreak. }
  unfold restart_cycle. cbv zeta. fold r0 rho_0. rewrite Hstart.
  fold w0. rewrite Hloop. cbn [bind fst snd].
  unfold finish_cycle. cbn [back_substitution bind].
  unfold reconstruct. wsimpl.
  destruct (read_in_range (projection_rhs w1) (i := 0)) as [c0 Hc0];
    [rewrite Hp1, Hpl; lia|].
  rewrite Hc0. cbn [bind Nat.ltb Nat.leb reflect_down]. cbv zeta.
  assert (Hc0' : c0 = nth 0 (projection_rhs w) zero).
  { symmetry. rewrite <- (read_nth zero _ _ Hc0). rewrite Hp1. reflexivity. }
  assert (Hr : res w1 = vdiv r0 rho_0) by (rewrite Hres1; reflexivity).
  assert (Hx : result w1 = result w) by (rewrite Hresult1; reflexivity).
  assert (Hpp : projection_rhs w1 = projection_rhs w) by (rewrite Hp1; reflexivity).
  assert (Hfinal :
    vadd (result w1) (vscale (vscale (res w1) c0) rho_0) =
    vadd (result w) (vscale (vscale (vdiv r0 rho_0) (nth 0 (projection_rhs w) zero)) rho_0))
    by (rewrite Hr, Hx, Hc0'; reflexivity).
  assert (Hzero : nth 0 (projection_rhs w) zero = zero ->
                  vadd (result w1) (vscale (vscale (res w1) c0) rho_0) = result w).
  { intros Hz. rewrite Hfinal, Hz, vscale_zero_r, vscale_zeros.
    rewrite vdiv_length. unfold r0.
    rewrite (@initial_residual_length F _ matrix precond rhs Hm Hp) by apply Hw.
    destruct Hw as (Hlw & _). rewrite <- Hlw. apply vadd_zeros. }
  assert (Hinit : w = initial_workspace rhs t ->
                  vadd (result w1) (vscale (vscale (res w1) c0) rho_0) = result w).
  { intros Hw0. apply Hzero. rewrite Hw0. exact Hfirst. }
  wsimpl.
  match goal with |- context [if ?c then _ else _] => destruct c end;
    do 2 eexists; (split; [reflexivity|]); wsimpl;
    (split; [exact Hpp|]); (split; [exact Hfinal|]); (split; [exact Hzero|exact Hinit]).
Qed.

End ExactArithmetic.

(** ** Runs in binary64 arithmetic *)

Section NotANumber.

Lemma mul_nan_r (x : float) : (x * nan)%float = nan.
Proof. nan_arith mul_spec. Qed.

Lemma mul_nan_l (x : float) : (nan * x)%float = nan.
Proof. nan_arith mul_spec. Qed.

Lemma add_nan_r (x : float) : (x + nan)%float = nan.
Proof. nan_arith add_spec. Qed.

Lemma add_nan_l (x : float) : (nan + x)%float = nan.
Proof. nan_arith add_spec. Qed.

Lemma sub_nan_r (x : float) : (x - nan)%float = nan.
Proof. nan_arith sub_spec. Qed.

Lemma sub_nan_l (x : float) : (nan - x)%float = nan.
Proof. nan_arith sub_spec. Qed.

Lemma div_nan_r (x : float) : (x / nan)%float = nan.
Proof. nan_arith div_spec. Qed.

Lemma div_nan_l (x : float) : (nan / x)%float = nan.
Proof. nan_arith div_spec. Qed.

Lemma ltb_nan_r (x : float) : (x <? nan)%float = false.
Proof.
  rewrite ltb_spec. change (Prim2SF nan) with S754_nan.
  unfold SFltb, SFcompare. destruct (Prim2SF x); reflexivity.
Qed.

Lemma ltb_nan_l (x : float) : (nan <? x)%float = false.
Proof. rewrite ltb_spec. reflexivity. Qed.

(** No absolute value is below a tolerance of zero. *)
Lemma ltb_abs_zero (x : float) : (abs x <? 0)%float = false.
Proof.
  rewrite ltb_spec, abs_spec. change (Prim2SF 0) with (S754_zero false).
  destruct (Prim2SF x) as [s|s| |s m e]; reflexivity.
Qed.

End NotANumber.

Ltac nan_eval :=
  repeat (cbv -[wrap Z.add];
          rewrite ?mul_nan_r, ?mul_nan_l, ?add_nan_r, ?add_nan_l, ?sub_nan_r, ?sub_nan_l,
                  ?div_nan_r, ?div_nan_l, ?ltb_nan_r, ?ltb_nan_l).

Ltac split_test :=
  match goal with
  | |- context [PrimFloat.ltb ?x ?y] => destruct (PrimFloat.ltb x y)
  end.

Section IdentityOnFirstUnitVector.

(** [std::sin] and [std::acos], whatever the C library makes of them. *)
Variables libm_sin libm_acos : float -> float.

Abbreviation double := (double_scalar libm_sin libm_acos).

(** Once [result] holds not-a-number, a restart cycle on the identity
    system neither returns nor repairs it. *)
Lemma nan_cycle (w : workspace float) :
  result w = [nan; nan]%float -> length (projection_rhs w) = 2 ->
  tol_ (tag w) = default_tolerance ->
  exists w',
    restart_cycle (arith := double) (prod (arith := double) identity_2) no_precond
      e_0 1%float 2 w = Some (false, w')
    /\ result w' = [nan; nan]%float /\ length (projection_rhs w') = 2
    /\ tol_ (tag w') = default_tolerance /\ last_error_ (tag w') = nan.
Proof.
  destruct w as [x r v Rs p Us rh t]. destruct t as [tl mi kd it er]. simpl.
  intros -> Hp ->. destruct p as [|p0 [|p1 [|? ?]]]; try discriminate.
  nan_eval.
  eexists; split; [reflexivity|]; repeat split.
Qed.

Lemma nan_loop (c : nat) (w : workspace float) :
  result w = [nan; nan]%float -> length (projection_rhs w) = 2 ->
  tol_ (tag w) = default_tolerance ->
  exists w',
    restart_loop (arith := double) (prod (arith := double) identity_2) no_precond
      e_0 1%float 2 c w = Some w'
    /\ result w' = [nan; nan]%float.
Proof.
  revert w; induction c as [|c IH]; intros w Hr Hp Ht; cbn [restart_loop].
  - eauto.
  - destruct (nan_cycle w Hr Hp Ht) as (w' & Hc & Hr' & Hp' & Ht' & _).
    rewrite Hc. cbn [bind fst snd]. apply IH; assumption.
Qed.

(** The first restart cycle on the identity system with right-hand side
    [e_0]: the Householder vector [U[0] = (U[0] - v) * (-1 / norm_2(U[0] - v))]
    is [0 * (-1/0)], not-a-number, and so is [result] from then on. *)
Lemma first_cycle_nan (indeterminate : float) :
  exists b w',
    restart_cycle (arith := double) (prod (arith := double) identity_2) no_precond
      e_0 1%float 2
      (initial_workspace (arith := double) e_0 (default_tag indeterminate)) = Some (b, w')
    /\ result w' = [nan; nan]%float /\ length (projection_rhs w') = 2
    /\ tol_ (tag w') = default_tolerance.
Proof.
  nan_eval.
  repeat (split_test; nan_eval);
    do 2 eexists; (split; [reflexivity|]); repeat split.
Qed.

(** C1, at the right-hand side [e_0].  For the 2 x 2 identity matrix, no
    preconditioner, the default configuration and [rhs = (1, 0)], [solve]
    returns the vector (NaN, NaN), whatever [std::sin] and [std::acos]
    compute; the claim has it return [rhs]. *)
Theorem solve_identity_e0_is_nan (indeterminate : float) :
  option_map fst
    (solve_no_precond (arith := double) (prod (arith := double) identity_2) e_0
       (default_tag indeterminate))
  = Some [nan; nan]%float.
Proof.
  unfold solve_no_precond, solve.
  change (feq (norm_2 e_0) zero) with false. cbv iota.
  change (max_restarts (default_tag indeterminate)) with (Some 14%Z). cbn [bind].
  change (norm_2 e_0) with 1%float.
  change (krylov_dim_used e_0 (default_tag indeterminate)) with 2.
  change (S (Z.to_nat 14)) with (S 14). rewrite restart_loop_succ.
  destruct (first_cycle_nan indeterminate) as (b & w1 & Hc & Hr & Hp & Ht).
  rewrite Hc. cbn [bind fst snd].
  destruct b.
  - cbn [bind option_map fst]. rewrite Hr. reflexivity.
  - destruct (nan_loop 14 w1 Hr Hp Ht) as (w2 & Hl & Hr2).
    rewrite Hl. cbn [bind option_map fst]. rewrite Hr2. reflexivity.
Qed.

(** C6, at the same input.  The first inner step of that run is completed
    (no breakdown), yet [res[0]] is not-a-number, which neither clamp
    catches: [projection_rhs[0]] is NaN, outside [[-rho, rho] = [-1, 1]],
    and the new [rho] is [1 * sin(acos(NaN))]. *)
Theorem first_step_stores_nan (indeterminate : float) :
  let w0 := enter_inner (arith := double) (prod (arith := double) identity_2) no_precond
              e_0 2 1%float
              (initial_workspace (arith := double) e_0 (default_tag indeterminate)) in
  rho w0 = 1%float
  /\ exists e w1,
       inner_step (arith := double) (prod (arith := double) identity_2) no_precond
         e_0 1%float 1%float 0 w0 = Some (e, w1)
       /\ e <> Breakdown
       /\ res w1 = [nan; nan]%float
       /\ projection_rhs w1 = [nan; 0]%float
       /\ PrimFloat.leb (- 1) nan = false /\ PrimFloat.leb nan 1 = false
       /\ rho w1 = (1 * libm_sin (libm_acos nan))%float.
Proof.
  split; [reflexivity|].
  nan_eval. split_test; do 2 eexists; (split; [reflexivity|]); repeat split; discriminate.
Qed.

(** C9, at a right-hand side of norm zero.  [solve] returns before it
    writes the error, and the constructor does not initialise it: after the
    call [error()] reads whatever the new object happened to hold. *)
Theorem zero_rhs_error_is_indeterminate (indeterminate : float) :
  option_map (fun r => (fst r, iters (snd r), error (snd r)))
    (solve_no_precond (arith := double) (prod (arith := double) identity_2) zero_2
       (default_tag indeterminate))
  = Some ([0; 0]%float, 0%Z, indeterminate).
Proof. reflexivity. Qed.

End IdentityOnFirstUnitVector.

(** ** A breakdown at the first step of a later cycle *)

Section StaleCoefficient.

Variables libm_sin libm_acos : float -> float.

Abbreviation double := (double_scalar libm_sin libm_acos).

Ltac tol0_eval := repeat (cbv -[wrap Z.add]; rewrite ?ltb_abs_zero).

(** First cycle on [singular_2 x = (3, 4)]: one completed step, no
    convergence; [projection_rhs[0]] is left at [-1]. *)
Lemma stale_first_cycle (indeterminate : float) :
  exists w1,
    restart_cycle (arith := double) (prod (arith := double) singular_2) no_precond
      rhs_34 5%float 1
      (initial_workspace (arith := double) rhs_34 (tag_tol0 2 indeterminate))
    = Some (false, w1)
    /\ result w1 = [-3; -4]%float /\ projection_rhs w1 = [-1]%float
    /\ tol_ (tag w1) = 0%float /\ iters_taken_ (tag w1) = 1%Z.
Proof.
  tol0_eval. eexists. split; [reflexivity|]. repeat split.
Qed.

(** Second cycle: the first inner step breaks down, [projection_rhs] still
    holds [-1] from the cycle before, and the correction
    [res * projection_rhs[0] * rho_0 = (0, 1) * -1 * 4] is added to
    [result]; the error recorded is [|rho * rho_0| = 4], where
    [|rho * rho_0 / norm_rhs|] is [0.8]. *)
Lemma stale_second_cycle (w : workspace float) :
  result w = [-3; -4]%float -> projection_rhs w = [-1]%float -> tol_ (tag w) = 0%float ->
  (exists w',
     inner_step (arith := double) (prod (arith := double) singular_2) no_precond
       rhs_34 5%float 4%float 0
       (enter_inner (arith := double) (prod (arith := double) singular_2) no_precond
          rhs_34 1 4%float w)
     = Some (Breakdown, w'))
  /\ exists w2,
       restart_cycle (arith := double) (prod (arith := double) singular_2) no_precond
         rhs_34 5%float 1 w = Some (false, w2)
       /\ result w2 = [-3; -8]%float /\ projection_rhs w2 = [-1]%float
       /\ last_error_ (tag w2) = 4%float
       /\ iters_taken_ (tag w2) = wrap (iters_taken_ (tag w) + 1).
Proof.
  destruct w as [x r v Rs p Us rh t]. destruct t as [tl mi kd it er]. simpl.
  intros -> -> ->. split.
  - tol0_eval. eexists. reflexivity.
  - tol0_eval. eexists. split; [reflexivity|]. repeat split.
Qed.

(** The whole run, for any [std::sin] and [std::acos]: with a budget of one
    cycle [solve] returns [(-3, -4)]; with a budget of two it returns
    [(-3, -8)], the second cycle having broken down at its first step. *)
Lemma stale_coefficient_run (indeterminate : float) :
  option_map fst
    (solve_no_precond (arith := double) (prod (arith := double) singular_2) rhs_34
       (tag_tol0 1 indeterminate))
  = Some [-3; -4]%float
  /\ option_map (fun r => (fst r, iters (snd r), error (snd r)))
       (solve_no_precond (arith := double) (prod (arith := double) singular_2) rhs_34
          (tag_tol0 2 indeterminate))
     = Some ([-3; -8]%float, 2%Z, 4%float).
Proof.
  split.
  - tol0_eval. reflexivity.
  - unfold solve_no_precond, solve.
    change (feq (norm_2 rhs_34) zero) with false. cbv iota.
    change (max_restarts (tag_tol0 2 indeterminate)) with (Some 1%Z). cbn [bind].
    change (norm_2 rhs_34) with 5%float.
    change (krylov_dim_used rhs_34 (tag_tol0 2 indeterminate)) with 1.
    change (S (Z.to_nat 1)) with 2. rewrite restart_loop_succ.
    destruct (stale_first_cycle indeterminate) as (w1 & Hc1 & Hr1 & Hp1 & Ht1 & Hi1).
    rewrite Hc1. cbn [bind fst snd]. rewrite restart_loop_succ.
    destruct (stale_second_cycle w1 Hr1 Hp1 Ht1) as (_ & w2 & Hc2 & Hr2 & _ & He2 & Hi2).
    rewrite Hc2. cbn [bind fst snd restart_loop option_map].
    unfold iters, error. rewrite Hr2, He2, Hi2, Hi1. reflexivity.
Qed.

End StaleCoefficient.

(** ** Instances of the statements above *)

Section RealRuns.

(** What holds of C6 in exact arithmetic: the clamps put [res[k]] into
    [[-rho, rho]], and for [0 < rho <= 1] the factor [sin(acos(p/rho))] lies
    in [[0, 1]], so [rho] does not grow and stays non-negative. *)
Lemma sin_acos_range (x : R) : (-1 <= x <= 1)%R -> (0 <= sin (acos x) <= 1)%R.
Proof.
  intros Hx. rewrite sin_acos by exact Hx. split; [apply sqrt_pos|].
  rewrite <- sqrt_1 at 2. apply sqrt_le_1_alt. unfold Rsqr. nra.
Qed.

Lemma real_clamp_range (k : nat) (r r' : vec R) (rh : R) :
  (0 <= rh)%R -> clamp k r rh = Some r' -> (- rh <= nth k r' 0 <= rh)%R.
Proof.
  intros Hrh. unfold clamp. cbn [flt fneg real_scalar]. intros Hc.
  bind_inv Hc.
  assert (Hl : (nth k l 0 <= rh)%R).
  { unfold real_lt in E0. destruct (Rlt_dec rh r0).
    - rewrite (nth_write_same 0%R _ _ _ E0). lra.
    - inversion E0; subst. rewrite (read_nth 0%R _ _ E). lra. }
  rewrite (read_nth 0%R _ _ E1) in Hl.
  unfold real_lt in Hc. destruct (Rlt_dec r1 (- rh)).
  - rewrite (nth_write_same 0%R _ _ _ Hc). lra.
  - inversion Hc; subst. rewrite (read_nth 0%R _ _ E1). lra.
Qed.

Lemma real_rho_update (rh p : R) :
  (0 < rh <= 1)%R -> (- rh <= p <= rh)%R ->
  (0 <= rh * sin (acos (p / rh)) <= rh)%R.
Proof.
  intros Hrh Hp.
  assert (Hx : (-1 <= p / rh <= 1)%R).
  { split.
    - apply Rmult_le_reg_r with rh; [lra|]. unfold Rdiv.
      rewrite Rmult_assoc, Rinv_l by lra. lra.
    - apply Rmult_le_reg_r with rh; [lra|]. unfold Rdiv.
      rewrite Rmult_assoc, Rinv_l by lra. lra. }
  pose proof (sin_acos_range Hx) as Hs. nra.
Qed.

Lemma real_inner_step_rho (matrix precond : vec R -> vec R) (rhs : vec R)
    (norm_rhs rho_0 : R) (k : nat) (w w' : workspace R) (e : step_exit) :
  inner_step matrix precond rhs norm_rhs rho_0 k w = Some (e, w') ->
  e <> Breakdown ->
  (0 < rho w <= 1)%R ->
  let p := nth k (projection_rhs w') 0%R in
  (- rho w <= p <= rho w)%R
  /\ rho w' = (rho w * sin (acos (p / rho w)))%R
  /\ (0 <= rho w' <= rho w)%R.
Proof.
  unfold inner_step. cbv zeta. intros Hs He Hrho.
  bind_inv Hs. wsimpl.
  destruct (flt (ffabs _) breakdown_threshold).
  { inversion Hs; subst. congruence. }
  bind_inv Hs. wsimpl.
  assert (Hp : nth k l4 0%R = r1) by (apply read_nth; assumption).
  assert (Hr1 : r1 = r0).
  { rewrite (read_write_same _ _ _ E9) in E10. congruence. }
  assert (Hrange : (- rho w <= r1 <= rho w)%R).
  { rewrite Hr1, <- (read_nth 0%R _ _ E8). eapply real_clamp_range; [lra|eassumption]. }
  pose proof (real_rho_update Hrho Hrange) as Hup.
  cbn [fmul fsin facos fdiv real_scalar] in *.
  assert (Hw' : projection_rhs w' = l4
                /\ rho w' = (rho w * sin (acos (r1 / rho w)))%R).
  { destruct (flt _ _); injection Hs as _ Hw; rewrite <- Hw; split; reflexivity. }
  destruct Hw' as (Hpw & Hrw). rewrite Hpw, Hrw, Hp.
  split; [exact Hrange|]. split; [reflexivity|exact Hup].
Qed.

Lemma real_lt_true (a b : R) : (a < b)%R -> real_lt a b = true.
Proof. intros Hab. unfold real_lt. destruct (Rlt_dec a b); [reflexivity|contradiction]. Qed.

Lemma real_lt_false (a b : R) : (~ a < b)%R -> real_lt a b = false.
Proof. intros Hab. unfold real_lt. destruct (Rlt_dec a b); [contradiction|reflexivity]. Qed.

Lemma real_eq_true (a b : R) : a = b -> real_eq a b = true.
Proof. intros Hab. unfold real_eq. destruct (Req_dec_T a b); [reflexivity|contradiction]. Qed.

Lemma real_eq_false (a b : R) : a <> b -> real_eq a b = false.
Proof. intros Hab. unfold real_eq. destruct (Req_dec_T a b); [contradiction|reflexivity]. Qed.

Lemma real_threshold_pos : (0 < 10 * / 2 ^ 52)%R.
Proof.
  apply Rmult_lt_0_compat; [lra|]. apply Rinv_0_lt_compat. apply pow_lt. lra.
Qed.

Lemma real_tolerance_small : (0 < real_tolerance < 1 / 2)%R.
Proof.
  unfold real_tolerance. split.
  - apply Rinv_0_lt_compat. apply pow_lt. lra.
  - replace (1 / 2)%R with (/ 2)%R by lra.
    apply Rinv_lt_contravar; [|simpl; lra].
    apply Rmult_lt_0_compat; [lra|]. apply pow_lt. lra.
Qed.

Lemma sqrt_of_square (x y : R) : (0 <= y)%R -> (x = y * y)%R -> sqrt x = y.
Proof. intros Hy ->. apply sqrt_square. exact Hy. Qed.

Lemma real_div_mul (a b : R) : b <> zero -> fmul (fdiv a b) b = a.
Proof. intros Hb. cbn in *. field. exact Hb. Qed.

Lemma prod_size (rows : list (vec R)) : size_preserving (length rows) (prod rows).
Proof. intros v _. unfold prod. apply length_map. Qed.

Lemma no_precond_size (n : nat) : size_preserving n (no_precond (F := R)).
Proof. intros v Hv. exact Hv. Qed.

(** With a tolerance above zero a step that leaves [rho = 0] ends the
    loop, so every step is entered with [0 < rho <= 1]: from any loop head
    to the end of the loop [rho] does not grow and stays non-negative. *)
Lemma real_inner_loop_rho (matrix precond : vec R -> vec R) (rhs : vec R)
    (norm_rhs rho_0 : R) (c k k' : nat) (w w' : workspace R) :
  (0 < tolerance (tag w))%R ->
  (0 < rho w <= 1)%R ->
  inner_loop matrix precond rhs norm_rhs rho_0 c k w = Some (k', w') ->
  (0 <= rho w' <= rho w)%R.
Proof.
  revert k w; induction c as [|c IH]; intros k w Htol Hrho Hl; cbn [inner_loop] in Hl.
  - inversion Hl; subst. lra.
  - destruct (inner_step matrix precond rhs norm_rhs rho_0 k w) as [[e w1]|] eqn:Hs;
      cbn [bind] in Hl; [|discriminate].
    destruct e.
    + pose proof (real_inner_step_rho _ _ _ _ _ _ _ Hs ltac:(discriminate) Hrho)
        as (_ & _ & Hb).
      assert (Hcont : (0 < tolerance (tag w1))%R /\ (0 < rho w1)%R).
      { clear IH Hl. unfold inner_step in Hs. cbv zeta in Hs.
        bind_inv Hs. wsimpl.
        destruct (flt (ffabs _) breakdown_threshold); [discriminate|].
        bind_inv Hs. wsimpl.
        match type of Hs with
        | (if flt ?a ?b then _ else _) = _ => destruct (flt a b) eqn:Ht; [discriminate|]
        end.
        injection Hs as Hw1. rewrite <- Hw1 in *. wsimpl.
        unfold tolerance in *. cbn [set_iters tol_] in *. split; [exact Htol|].
        cbn [flt ffabs fmul fdiv real_scalar] in Ht. unfold real_lt in Ht.
        destruct (Rlt_dec _ _) as [|Hge]; [discriminate|].
        destruct (Req_dec_T (rho w * sin (acos (r1 / rho w))) 0) as [Hz|Hnz]; [|lra].
        exfalso. apply Hge. cbn [fsin facos real_scalar]. rewrite Hz.
        unfold Rdiv. rewrite !Rmult_0_l, Rabs_R0. exact Htol. }
      destruct Hcont as (Htol1 & Hpos1).
      pose proof (IH _ _ Htol1 ltac:(lra) Hl). lra.
    + inversion Hl; subst.
      clear IH. unfold inner_step in Hs. cbv zeta in Hs.
      bind_inv Hs. wsimpl.
      destruct (flt (ffabs _) breakdown_threshold).
      * injection Hs as Hw1. rewrite <- Hw1. wsimpl. lra.
      * bind_inv Hs. destruct (flt _ _); discriminate.
    + inversion Hl; subst.
      pose proof (real_inner_step_rho _ _ _ _ _ _ _ Hs ltac:(discriminate) Hrho)
        as (_ & _ & Hb). exact Hb.
Qed.

End RealRuns.

(** ** The identity operator in exact arithmetic *)

Section IdentityOperator.

Local Open Scope R_scope.

Ltac fields :=
  cbn [bind option_map fst snd result res v_k_tilde R_ projection_rhs U rho tag
       with_result with_res with_v_k_tilde with_R with_projection_rhs
       with_U with_rho with_tag tolerance iters error set_iters set_error
       tol_ iterations_ krylov_dim_ iters_taken_ last_error_].

Lemma inner_prod_acc_dot (acc : R) (a b : vec R) : inner_prod_acc acc a b = acc + dot a b.
Proof.
  revert acc b; induction a as [|x a IH]; intros acc [|y b]; cbn; try lra.
  rewrite IH. lra.
Qed.

Lemma inner_prod_dot (a b : vec R) : inner_prod a b = dot a b.
Proof. unfold inner_prod. rewrite inner_prod_acc_dot. cbn. lra. Qed.

Lemma dot_comm (a b : list R) : dot a b = dot b a.
Proof. revert b; induction a as [|x a IH]; intros [|y b]; cbn; try lra. rewrite IH. lra. Qed.

Lemma dot_vscale_l (a b : vec R) (s : R) : dot (vscale a s) b = s * dot a b.
Proof.
  unfold vsub, vadd, vscale, vdiv, zeros.
  revert b; induction a as [|x a IH]; intros [|y b]; cbn; try lra. rewrite IH. lra.
Qed.

Lemma dot_vsub_l (a c b : vec R) :
  length a = length c -> dot (vsub a c) b = dot a b - dot c b.
Proof.
  unfold vsub, vadd, vscale, vdiv, zeros.
  revert c b; induction a as [|x a IH]; intros [|z c] [|y b] Hl; cbn in *; try lra; try discriminate.
  rewrite IH by congruence. lra.
Qed.

Lemma dot_zeros_l (m : nat) (b : vec R) : dot (zeros m) b = 0.
Proof.
  unfold vsub, vadd, vscale, vdiv, zeros.
  revert b; induction m as [|m IH]; intros [|y b]; cbn; try lra. rewrite IH. lra.
Qed.

Lemma dot_vdiv (a b : vec R) (s : R) :
  s <> 0 -> dot (vdiv a s) (vdiv b s) = dot a b / (s * s).
Proof.
  unfold vsub, vadd, vscale, vdiv, zeros.
  intros Hs. revert b; induction a as [|x a IH]; intros [|y b]; cbn; try (field; assumption).
  rewrite IH. field. assumption.
Qed.

Lemma dot_nonneg (a : list R) : 0 <= dot a a.
Proof. induction a as [|x a IH]; cbn; [lra|nra]. Qed.

Lemma vsub_zeros_r (a : vec R) : vsub a (zeros (length a)) = a.
Proof.
  unfold vsub, vadd, vscale, vdiv, zeros.
  induction a as [|x a IH]; cbn; [reflexivity|]. f_equal; [lra|exact IH].
Qed.

Lemma vadd_zeros_l (a : vec R) : vadd (zeros (length a)) a = a.
Proof.
  unfold vsub, vadd, vscale, vdiv, zeros.
  induction a as [|x a IH]; cbn; [reflexivity|]. f_equal; [lra|exact IH].
Qed.

Lemma vscale_vdiv (a : vec R) (s : R) : s <> 0 -> vscale (vdiv a s) s = a.
Proof.
  unfold vsub, vadd, vscale, vdiv, zeros.
  intros Hs. induction a as [|x a IH]; cbn; [reflexivity|]. f_equal; [field; assumption|exact IH].
Qed.

Lemma vscale_one (a : vec R) (s : R) : s = 1 -> vscale a s = a.
Proof.
  unfold vsub, vadd, vscale, vdiv, zeros.
  intros ->. induction a as [|x a IH]; cbn; [reflexivity|]. f_equal; [lra|exact IH].
Qed.

(** [v - ((a - v) * s) * k] is [a] when [s * k = -1], and
    [a - ((a - v) * s) * k] is [v] when [s * k = 1]. *)
Lemma reflect_onto (a v : vec R) (s k : R) :
  length a = length v -> s * k = -1 ->
  vsub v (vscale (vscale (vsub a v) s) k) = a.
Proof.
  unfold vsub, vadd, vscale, vdiv, zeros.
  intros Hl Hsk. revert v Hl; induction a as [|x a IH]; intros [|y v] Hl; cbn in *;
    try reflexivity; try discriminate.
  f_equal; [|apply IH; congruence].
  replace ((x - y) * s * k) with ((x - y) * (s * k)) by ring. rewrite Hsk. ring.
Qed.

Lemma reflect_back (a v : vec R) (s k : R) :
  length a = length v -> s * k = 1 ->
  vsub a (vscale (vscale (vsub a v) s) k) = v.
Proof.
  unfold vsub, vadd, vscale, vdiv, zeros.
  intros Hl Hsk. revert v Hl; induction a as [|x a IH]; intros [|y v] Hl; cbn in *;
    try reflexivity; try discriminate.
  f_equal; [|apply IH; congruence].
  replace ((x - y) * s * k) with ((x - y) * (s * k)) by ring. rewrite Hsk. ring.
Qed.

(** The setting: [matrix] acts as the identity on the vectors of the size of
    the right-hand side [b = b0 :: bt], and [b] is not a non-negative
    multiple of the first unit vector, [b0 < ||b||]. *)
Variable matrix : vec R -> vec R.
Variables (b0 : R) (bt : vec R).
Hypothesis Hid : forall v, length v = S (length bt) -> matrix v = v.
Let b := b0 :: bt.
Let rho0 := norm_2 b.
Hypothesis Hb : b0 < rho0.

Lemma rho0_sq : rho0 * rho0 = dot b b.
Proof. unfold rho0, norm_2. cbn [fsqrt real_scalar]. rewrite inner_prod_dot. apply sqrt_sqrt. apply dot_nonneg. Qed.

Lemma rho0_pos : 0 < rho0.
Proof.
  pose proof rho0_sq as Hsq. pose proof (dot_nonneg bt) as Hbt.
  assert (Hge : 0 <= rho0) by (unfold rho0, norm_2; cbn [fsqrt real_scalar]; apply sqrt_pos).
  unfold b in Hsq. cbn [dot] in Hsq.
  destruct (Req_dec_T rho0 0) as [Hz|Hnz]; [|lra].
  rewrite Hz in *. nra.
Qed.

Let r := vdiv b rho0.
Let m := length bt.
Let e0 : vec R := 1 :: zeros m.

Lemma r_unit : dot r r = 1.
Proof.
  unfold r. pose proof rho0_pos. rewrite dot_vdiv by lra. rewrite <- rho0_sq. field. lra.
Qed.

Lemma r_length : length r = S m.
Proof. unfold r, vdiv. rewrite length_map. reflexivity. Qed.

Lemma e0_length : length e0 = length r.
Proof. rewrite r_length. unfold e0, zeros. cbn. rewrite repeat_length. reflexivity. Qed.

Lemma r0_lt_1 : nth 0 r 0 < 1.
Proof.
  unfold r, b. cbn. pose proof rho0_pos.
  apply Rmult_lt_reg_r with rho0; [lra|]. unfold Rdiv. rewrite Rmult_assoc, Rinv_l by lra. lra.
Qed.

Let d := vsub e0 r.
Let N := norm_2 d.
Let u := vscale d (gpu_scalar_minus_1 / N).

Lemma dot_e0 (v : vec R) : dot e0 v = nth 0 v 0.
Proof. unfold e0. destruct v as [|x v]; cbn; [lra|]. rewrite dot_zeros_l. lra. Qed.

Lemma d_sq : dot d d = 2 * (1 - nth 0 r 0).
Proof.
  unfold d. rewrite dot_vsub_l by apply e0_length.
  rewrite !(dot_comm _ (vsub e0 r)).
  rewrite !dot_vsub_l by apply e0_length.
  rewrite r_unit, (dot_comm r e0), !dot_e0. unfold e0. cbn. lra.
Qed.

Lemma N_sq : N * N = 2 * (1 - nth 0 r 0).
Proof.
  unfold N, norm_2. cbn [fsqrt real_scalar]. rewrite inner_prod_dot, <- d_sq.
  apply sqrt_sqrt. apply dot_nonneg.
Qed.

Lemma N_pos : 0 < N.
Proof.
  pose proof N_sq as Hsq. pose proof r0_lt_1.
  assert (Hge : 0 <= N) by (unfold N, norm_2; cbn [fsqrt real_scalar]; apply sqrt_pos).
  destruct (Req_dec_T N 0) as [Hz|Hnz]; [|lra]. rewrite Hz in *. lra.
Qed.

(** The Householder vector [u] built from the unit vector [r] exchanges [r]
    and the first unit vector. *)
Lemma reflect_u_r : reflect u r = e0.
Proof.
  unfold reflect, u, d. apply reflect_onto.
  - apply e0_length.
  - cbn [fmul fdiv gpu_scalar_minus_1 gpu_scalar_2 from_int real_scalar].
    rewrite inner_prod_dot, dot_vscale_l. fold d.
    assert (Hdr : dot d r = nth 0 r 0 - 1).
    { unfold d. rewrite dot_vsub_l by apply e0_length.
      rewrite dot_e0, r_unit. reflexivity. }
    rewrite Hdr. pose proof N_sq. pose proof N_pos.
    cbn [fdiv real_scalar]. fold N.
    assert ((-1 / N) * (-1 / N) = / (N * N)) as Hs by (field; lra).
    transitivity ((-1 / N * (-1 / N)) * ((nth 0 r 0 - 1) * 2)); [ring|].
    rewrite Hs, H. field. pose proof r0_lt_1. lra.
Qed.

Lemma reflect_u_e0 : reflect u e0 = r.
Proof.
  unfold reflect, u, d. apply reflect_back.
  - apply e0_length.
  - cbn [fmul fdiv gpu_scalar_minus_1 gpu_scalar_2 from_int real_scalar].
    rewrite inner_prod_dot, dot_vscale_l. fold d.
    assert (Hde : dot d e0 = 1 - nth 0 r 0).
    { unfold d. rewrite dot_vsub_l by apply e0_length.
      rewrite (dot_comm r e0), !dot_e0. unfold e0. cbn. lra. }
    rewrite Hde. pose proof N_sq. pose proof N_pos.
    fold N.
    assert ((-1 / N) * (-1 / N) = / (N * N)) as Hs by (field; lra).
    transitivity ((-1 / N * (-1 / N)) * ((1 - nth 0 r 0) * 2)); [ring|].
    rewrite Hs, H. field. pose proof r0_lt_1. lra.
Qed.


Lemma initial_residual_b : initial_residual matrix no_precond b (zeros (length b)) = b.
Proof.
  unfold initial_residual, no_precond. rewrite Hid.
  - apply vsub_zeros_r.
  - unfold zeros. rewrite repeat_length. reflexivity.
Qed.

Variable T : gmres_tag R.
Hypothesis Htol : 0 < tol_ T <= 1.

(** The first inner step, entered with residual [r = b / ||b||]: the
    candidate is [r] itself, its reflection is the first unit vector,
    [rho] becomes [0] and the step ends the loop as converged. *)
Lemma step0 (X V : vec R) (z p0 : R) (Rr pt : list R) (Rt : list (list R))
    (U0 : vec R) (Ut : list (vec R)) (T' : gmres_tag R) :
  tol_ T' = tol_ T ->
  inner_step matrix no_precond b rho0 rho0 0
    (Build_workspace X r V ((z :: Rr) :: Rt) (p0 :: pt) (U0 :: Ut) 1 T')
  = Some (Converged,
          Build_workspace X e0 r ((1 :: Rr) :: Rt) (1 :: pt) (u :: Ut) 0
            (set_error 0 (set_iters (wrap (iters T' + 1)) T'))).
Proof.
  intros HT. unfold inner_step. cbv zeta. fields. cbn [candidate res]. unfold no_precond at 1.
  rewrite Hid by apply r_length. fields.
  assert (Hsr : start_reflection b 0 r = Some e0).
  { unfold start_reflection, gmres_copy_helper, problem_size, b.
    cbn [copy_from bind length zeros repeat write]. fold (zeros (F := R) m).
    rewrite !inner_prod_dot. fold b. fold r. rewrite r_unit.
    change (zero :: repeat zero (length bt)) with (zeros (F := R) (S m)).
    rewrite dot_zeros_l.
    cbn [fsqrt fsub real_scalar].
    replace (1 - 0) with 1 by lra. rewrite sqrt_1. reflexivity. }
  rewrite Hsr. unfold e0 at 1 2. cbn [bind write read nth_error]. fold e0.
  assert (Hbd : flt (ffabs 1) breakdown_threshold = false).
  { apply real_lt_false. cbn [ffabs real_scalar]. rewrite Rabs_R1.
    unfold breakdown_threshold. cbn [fmul from_int fepsilon real_scalar].
    assert (/ 2 ^ 52 <= / 2 ^ 4).
    { apply Rinv_le_contravar; [simpl; lra|]. apply Rle_pow; [lra|lia]. }
    simpl in H. simpl. lra. }
  rewrite Hbd.
  unfold gmres_copy_helper, e0 at 1. cbn [Nat.add copy_from bind read nth_error write]. fold e0.
  fold d. fold N. change (vscale d (fdiv gpu_scalar_minus_1 N)) with u.
  rewrite reflect_u_r.
  assert (Hcl : clamp 0 e0 1 = Some e0).
  { unfold clamp, e0. cbn [read nth_error bind].
    rewrite real_lt_false by lra.
    cbn [bind read nth_error]. rewrite real_lt_false by (cbn; lra). reflexivity. }
  rewrite Hcl. cbn [bind]. unfold e0 at 1. cbn [bind read nth_error write].
  assert (Hrho : fmul 1 (fsin (facos (fdiv 1 1))) = 0).
  { cbn [fmul fsin facos fdiv real_scalar]. replace (1 / 1) with 1 by lra.
    rewrite acos_1, sin_0. lra. }
  rewrite Hrho.
  assert (Hz : ffabs (fdiv (fmul 0 rho0) rho0) = 0).
  { cbn [ffabs fdiv fmul real_scalar]. unfold Rdiv. rewrite !Rmult_0_l. apply Rabs_R0. }
  rewrite Hz. unfold tolerance. cbn [set_iters tol_]. rewrite HT.
  rewrite real_lt_true by lra.
  reflexivity.
Qed.


(** The cycle's end for [k_eff = 1]: the update is [b]. *)
Lemma finish1 (Rr pt : list R) (Rt : list (list R)) (Ut : list (vec R)) (T' : gmres_tag R) :
  tol_ T' = tol_ T ->
  finish_cycle rho0 rho0 1
    (Build_workspace (zeros (S m)) e0 r ((1 :: Rr) :: Rt) (1 :: pt) (u :: Ut) 0 T')
  = Some (true,
          Build_workspace b b r ((1 :: Rr) :: Rt) (1 / 1 :: pt) (u :: Ut) 0 (set_error 0 T')).
Proof.
  intros HT. unfold finish_cycle.
  cbn [back_substitution eliminate Nat.sub bind read nth_error write R_ projection_rhs].
  cbn [fdiv real_scalar]. fields.
  unfold reconstruct. fields. cbn [read nth_error bind Nat.ltb Nat.leb Nat.sub add_coefficients].
  rewrite (@vscale_one e0 (1 / 1)) by lra.
  cbn [reflect_down read nth_error bind]. rewrite reflect_u_e0.
  pose proof rho0_pos as Hpos.
  assert (Hvr : vscale r rho0 = b) by (unfold r; apply vscale_vdiv; lra).
  assert (Hva : vadd (zeros (S m)) b = b)
    by (change (S m) with (length b); apply vadd_zeros_l).
  assert (Hz : ffabs (fmul 0 rho0 / rho0) = 0).
  { cbn [ffabs fmul real_scalar]. unfold Rdiv. rewrite !Rmult_0_l. apply Rabs_R0. }
  fields. unfold tolerance. rewrite !Hvr, !Hva, !Hz, HT. rewrite real_lt_true by lra. reflexivity.
Qed.

Lemma cycle1 (kd' : nat) :
  krylov_dim_used b T = S kd' ->
  exists w w2,
    inner_loop matrix no_precond b rho0 rho0 (S kd') 0
      (enter_inner matrix no_precond b (S kd') rho0 (initial_workspace b T))
    = Some (1%nat, w)
    /\ restart_cycle matrix no_precond b rho0 (S kd') (initial_workspace b T)
       = Some (true, w2)
    /\ result w2 = b /\ iters (tag w2) = 1%Z /\ error (tag w2) = 0.
Proof.
  intros Hkd.
  assert (Hw0 : enter_inner matrix no_precond b (S kd') rho0 (initial_workspace b T) =
                Build_workspace (zeros (S m)) r (zeros (S m))
                  ((0 :: zeros kd') :: repeat (zeros (S kd')) kd')
                  (0 :: zeros kd') (zeros (S m) :: repeat (zeros (S m)) kd') 1
                  (set_iters 0 T)).
  { unfold enter_inner, initial_workspace. rewrite Hkd. fields.
    change (problem_size b) with (length b). rewrite initial_residual_b. reflexivity. }
  assert (Hloop : inner_loop matrix no_precond b rho0 rho0 (S kd') 0
      (enter_inner matrix no_precond b (S kd') rho0 (initial_workspace b T))
    = Some (1%nat, Build_workspace (zeros (S m)) e0 r
               ((1 :: zeros kd') :: repeat (zeros (S kd')) kd') (1 :: zeros kd')
               (u :: repeat (zeros (S m)) kd') 0
               (set_error 0 (set_iters (wrap (iters (set_iters 0 T) + 1)) (set_iters 0 T))))).
  { rewrite Hw0. cbn [inner_loop]. rewrite step0 by reflexivity. reflexivity. }
  do 2 eexists. split; [exact Hloop|].
  pose proof rho0_pos as Hpos.
  unfold restart_cycle. cbv zeta.
  change (result (initial_workspace b T)) with (zeros (F := R) (length b)).
  rewrite initial_residual_b. fold rho0.
  assert (Hstart : flt (fdiv rho0 rho0) (tolerance (tag (initial_workspace b T)))
                   || feq rho0 zero = false).
  { cbn [initial_workspace tag tolerance set_iters tol_ flt feq fdiv real_scalar].
    replace (rho0 / rho0) with 1 by (field; lra).
    rewrite real_lt_false by lra.
    rewrite real_eq_false by (unfold zero; cbn [from_int real_scalar]; lra). reflexivity. }
  rewrite Hstart, Hloop. cbn [bind fst snd].
  rewrite finish1 by reflexivity. split; [reflexivity|]. repeat split.
Qed.

(** In exact arithmetic, with the identity operator, no preconditioner, a
    tolerance in (0, 1] and a right-hand side [b] that is not a
    non-negative multiple of the first unit vector ([b[0] < ||b||]):
    [solve] returns [b] after one inner step of the first restart cycle. *)
Lemma real_solve_identity :
  (0 < krylov_dim T)%Z ->
  exists t',
    solve matrix no_precond b T = Some (b, t')
    /\ iters t' = 1%Z /\ error t' = 0
    /\ exists w,
         inner_loop matrix no_precond b rho0 rho0 (krylov_dim_used b T) 0
           (enter_inner matrix no_precond b (krylov_dim_used b T) rho0
              (initial_workspace b T))
         = Some (1%nat, w).
Proof.
  intros Hkd.
  assert (Hkdu : exists kd', krylov_dim_used b T = S kd').
  { unfold krylov_dim_used, problem_size, b. cbn [length].
    destruct (Z.ltb_spec (Z.of_nat (S (length bt))) (krylov_dim T)).
    - eauto.
    - exists (Nat.pred (Z.to_nat (krylov_dim T))). lia. }
  destruct Hkdu as (kd' & Hkdu).
  destruct (@cycle1 kd' Hkdu) as (w & w2 & Hloop & Hcycle & Hres & Hit & Herr).
  assert (Hmr : exists mr, max_restarts T = Some mr).
  { unfold max_restarts. unfold krylov_dim in Hkd.
    destruct (Z.eqb_spec (krylov_dim_ T) 0); [lia|].
    destruct (_ && _); eauto. }
  destruct Hmr as (mr & Hmr).
  pose proof rho0_pos as Hpos.
  exists (tag w2). split; [|split; [exact Hit|split; [exact Herr|]]].
  - unfold solve. fold rho0.
    assert (Hz : feq rho0 zero = false).
    { apply real_eq_false. unfold zero; cbn [from_int real_scalar]; lra. }
    rewrite Hz, Hmr. cbn [bind]. rewrite Hkdu.
    cbn [restart_loop]. rewrite Hcycle. cbn [bind fst snd]. rewrite Hres. reflexivity.
  - rewrite Hkdu. exists w. exact Hloop.
Qed.

End IdentityOperator.

(** The spec's example system: the 3 x 3 identity with [krylov_dim = 100]. *)
Lemma real_solve_identity_3 :
  exists t',
    solve (prod identity_3) no_precond rhs_3 tag_100 = Some (rhs_3, t')
    /\ iters t' = 1%Z /\ error t' = 0%R.
Proof.
  assert (Hid : forall v : vec R, length v = 3 -> prod identity_3 v = v).
  { intros [|x [|y [|z [|? ?]]]] Hl; try discriminate.
    unfold prod, identity_3, inner_prod. cbn [map inner_prod_acc zero from_int fadd fmul real_scalar].
    repeat f_equal; lra. }
  assert (Hb : (1 < norm_2 rhs_3)%R).
  { unfold norm_2, rhs_3, inner_prod.
    cbn [inner_prod_acc zero from_int fadd fmul fsqrt real_scalar].
    rewrite <- sqrt_1 at 1. apply sqrt_lt_1; lra. }
  assert (Htol : (0 < tol_ tag_100 <= 1)%R).
  { cbn [tag_100 new_gmres_tag tol_]. pose proof real_tolerance_small. lra. }
  destruct (@real_solve_identity (prod identity_3) 1%R [2; 3]%R Hid Hb tag_100 Htol
              ltac:(reflexivity)) as (t' & Hs & Hi & He & _).
  exists t'. auto.
Qed.

Lemma solve_zero_rhs_witness :
  solve (prod identity_3) no_precond zero_3 tag_100 = Some (zeros 3, tag_100)
  /\ iters tag_100 = 0%Z.
Proof.
  destruct (@solve_zero_rhs R _ (prod identity_3) no_precond zero_3
              real_tolerance 300 100 0%R) as (Hs & Hi & _).
  - apply real_eq_true. cbn. apply sqrt_of_square; [lra|lra].
  - split; [exact Hs|exact Hi].
Defined.

Lemma max_restarts_quotient_witness :
  max_restarts tag_100 = Some 2%Z /\ (2 * 100 <= 300)%Z.
Proof.
  apply (max_restarts_quotient tag_100); unfold is_uint, uint_modulus; cbn; lia.
Defined.


Lemma back_substitution_solves_witness :
  exists c,
    back_substitution R_2 2 2 p_2 = Some c
    /\ (forall i, i < 2 ->
          sum_range (fun j => fmul (entry R_2 j i) (nth j c zero)) i (2 - i) = nth i p_2 zero).
Proof.
  destruct (@back_substitution_solves R real_scalar RTheory real_div_mul 2 R_2 p_2 2)
    as (c & Hb & _ & _ & _ & Hsys).
  - reflexivity.
  - repeat constructor.
  - reflexivity.
  - lia.
  - intros i Hi. destruct i as [|[|i]]; [cbn; lra|cbn; lra|lia].
  - exists c. split; [exact Hb|exact Hsys].
Defined.

Lemma solve_stays_in_range_witness :
  krylov_dim_used rhs_3 tag_100 = 3
  /\ exists x t', solve (prod identity_3) no_precond rhs_3 tag_100 = Some (x, t')
                  /\ length x = 3.
Proof.
  destruct (@solve_stays_in_range R _ (prod identity_3) no_precond rhs_3
              (@prod_size identity_3) (@no_precond_size 3) tag_100)
    as (Hmin & _ & Hsolve & _).
  - cbn. lia.
  - cbn. lia.
  - split; [exact Hmin|exact Hsolve].
Defined.

Lemma recorded_error_by_exit_witness :
  exists b w_end,
    restart_cycle (prod zero_matrix_1) no_precond rhs_1 (norm_2 rhs_1) 1
      (initial_workspace rhs_1 tag_1) = Some (b, w_end)
    /\ solve (prod zero_matrix_1) no_precond rhs_1 tag_1 = Some (result w_end, tag w_end).
Proof.
  destruct (@restart_cycle_ok R _ (prod zero_matrix_1) no_precond rhs_1
              (@prod_size zero_matrix_1) (@no_precond_size 1) (norm_2 rhs_1) 1
              (initial_workspace rhs_1 tag_1))
    as (b & w_end & Hc & _).
  - repeat split.
  - lia.
  - cbn. lia.
  - exists b, w_end. split; [exact Hc|].
    apply (@recorded_error_by_exit R _ (prod zero_matrix_1) no_precond rhs_1 tag_1
             0%Z 0 (initial_workspace rhs_1 tag_1) w_end b).
    + apply real_eq_false. cbn.
      rewrite (@sqrt_of_square _ 2%R) by lra. lra.
    + reflexivity.
    + cbn. lia.
    + constructor.
    + exact Hc.
    + right. reflexivity.
Defined.

Lemma first_step_breakdown_adds_nothing_witness :
  exists b w',
    restart_cycle (prod zero_matrix_1) no_precond rhs_1 2%R 1
      (initial_workspace rhs_1 tag_1) = Some (b, w')
    /\ projection_rhs w' = [0%R]
    /\ result w' = [0%R].
Proof.
  destruct (@first_step_breakdown_adds_nothing R real_scalar RTheory
              (prod zero_matrix_1) no_precond rhs_1 tag_1 2%R
              (initial_workspace rhs_1 tag_1)
              (@prod_size zero_matrix_1) (@no_precond_size 1))
    as (b & w' & Hc & Hp & _ & _ & Hres).
  - cbn. lia.
  - repeat split.
  - cbn. rewrite (@sqrt_of_square _ 2%R) by lra.
    rewrite real_lt_false by (pose proof real_tolerance_small; lra).
    rewrite real_eq_false by lra. reflexivity.
  - apply real_lt_true. cbn -[pow].
    set (q := sqrt (0 + (2 - (0 + 0 * 0)) * (2 - (0 + 0 * 0)))).
    rewrite (@sqrt_of_square _ 0%R) by (try lra; ring).
    rewrite Rabs_R0. apply real_threshold_pos.
  - exists b, w'. split; [exact Hc|]. split; [exact Hp|]. apply Hres. reflexivity.
Defined.

(** * Statements in the arithmetic the code computes with *)

(** ** A right-hand side of norm zero on a used configuration object *)

Section ReusedConfiguration.

Variables libm_sin libm_acos : float -> float.

Abbreviation double := (double_scalar libm_sin libm_acos).

(** C2, on a configuration object that a run has used before.  [solve]
    returns at line 152, before [tag.iters(0)] of line 162: the zero vector
    comes back, and [iters()] reads the count of the run before, not 0. *)
Theorem zero_rhs_keeps_stale_iters (stale_iters : Z) (stale_error : float) :
  option_map (fun r => (fst r, iters (snd r)))
    (solve_no_precond (arith := double) (prod (arith := double) identity_2) zero_2
       (reused_tag stale_iters stale_error))
  = Some ([0; 0]%float, stale_iters).
Proof. reflexivity. Qed.

End ReusedConfiguration.

(** ** The back-substitution as the code computes it *)

Section BackSubstitutionOrder.

Context {F : Type} `{Scalar F}.


End BackSubstitutionOrder.



(** ** A breakdown at the first inner step *)

Section FirstStepBreakdown.

Context {F : Type} `{Scalar F}.

(** In any arithmetic: a restart cycle whose first inner step breaks down
    leaves [projection_rhs] as it found it and adds to [result] the
    normalised residual times the entry [projection_rhs[0]] it found,
    times [rho_0]. *)
Lemma first_step_breakdown_cycle (matrix precond : vec F -> vec F)
    (rhs : vec F) (t : gmres_tag F) (norm_rhs : F) (w : workspace F) :
  size_preserving (problem_size rhs) matrix ->
  size_preserving (problem_size rhs) precond ->
  let kd := krylov_dim_used rhs t in
  let r0 := initial_residual matrix precond rhs (result w) in
  let rho_0 := norm_2 r0 in
  let v := precond (matrix (vdiv r0 rho_0)) in
  let z := zeros (problem_size rhs) in
  0 < kd ->
  cycle_sized (problem_size rhs) kd w ->
  flt (fdiv rho_0 norm_rhs) (tolerance (tag w)) || feq norm_rhs zero = false ->
  flt (ffabs (fsqrt (fsub (inner_prod v v) (inner_prod z z)))) breakdown_threshold = true ->
  exists b w',
    restart_cycle matrix precond rhs norm_rhs kd w = Some (b, w')
    /\ projection_rhs w' = projection_rhs w
    /\ result w' =
        vadd (result w)
          (vscale (vscale (vdiv r0 rho_0) (nth 0 (projection_rhs w) zero)) rho_0).
Proof.
  intros Hm Hp kd r0 rho_0 v z Hkd Hw Hstart Hbreak.
  assert (Hle : kd <= problem_size rhs).
  { unfold kd, krylov_dim_used.
    destruct (Z.ltb_spec (Z.of_nat (problem_size rhs)) (krylov_dim t)); lia. }
  pose proof (@enter_inner_sized F _ matrix precond rhs Hm Hp kd rho_0 w Hw) as Hsized.
  set (w0 := enter_inner matrix precond rhs kd rho_0 w) in *.
  destruct Hsized as (Hresult & Hres & Hvk & HR & HRs & Hpl & HU & HUs).
  destruct kd as [|kd'] eqn:Ekd; [lia|].
  destruct (@breakdown_step F _ matrix precond rhs norm_rhs rho_0 kd' 0 w0 v z)
    as (w1 & _ & Hloop & HR1 & Hp1 & Hres1 & Hrho1 & Hresult1 & _ & _).
  { reflexivity. }
  { reflexivity. }
  { unfold z. rewrite zeros_length. lia. }
  { lia. }
  { exact Hbreak. }
  unfold restart_cycle. cbv zeta. fold r0 rho_0. rewrite Hstart.
  fold w0. rewrite Hloop. cbn [bind fst snd].
  unfold finish_cycle. cbn [back_substitution bind].
  unfold reconstruct. wsimpl.
  destruct (read_in_range (projection_rhs w1) (i := 0)) as [c0 Hc0];
    [rewrite Hp1, Hpl; lia|].
  rewrite Hc0. cbn [bind Nat.ltb Nat.leb reflect_down]. cbv zeta.
  assert (Hc0' : c0 = nth 0 (projection_rhs w) zero).
  { symmetry. rewrite <- (read_nth zero _ _ Hc0). rewrite Hp1. reflexivity. }
  assert (Hr : res w1 = vdiv r0 rho_0) by (rewrite Hres1; reflexivity).
  assert (Hx : result w1 = result w) by (rewrite Hresult1; reflexivity).
  assert (Hpp : projection_rhs w1 = projection_rhs w) by (rewrite Hp1; reflexivity).
  assert (Hfinal :
    vadd (result w1) (vscale (vscale (res w1) c0) rho_0) =
    vadd (result w) (vscale (vscale (vdiv r0 rho_0) (nth 0 (projection_rhs w) zero)) rho_0))
    by (rewrite Hr, Hx, Hc0'; reflexivity).
  wsimpl.
  match goal with |- context [if ?c then _ else _] => destruct c end;
    do 2 eexists; (split; [reflexivity|]); wsimpl;
    (split; [exact Hpp|exact Hfinal]).
Qed.

End FirstStepBreakdown.

Section ZeroCorrection.

Variables libm_sin libm_acos : float -> float.

Abbreviation double := (double_scalar libm_sin libm_acos).

Lemma mul_zero_of_finite (x : float) :
  is_finite x = true -> exists s, Prim2SF (x * 0) = S754_zero s.
Proof.
  unfold is_finite. rewrite mul_spec. change (Prim2SF 0) with (S754_zero false).
  destruct (Prim2SF x) as [s|s| |s m e]; try discriminate; intros _; cbn; eauto.
Qed.

Lemma zero_mul_finite (y r : float) (s : bool) :
  Prim2SF y = S754_zero s -> is_finite r = true ->
  exists s', Prim2SF (y * r) = S754_zero s'.
Proof.
  unfold is_finite. rewrite mul_spec. intros ->.
  destruct (Prim2SF r) as [s1|s1| |s1 m e]; try discriminate; intros _; cbn; eauto.
Qed.

Lemma zero_add_zero (y : float) (s : bool) :
  Prim2SF y = S754_zero s -> (0 + y)%float = 0%float.
Proof.
  intros Hy. apply Prim2SF_inj. rewrite add_spec, Hy.
  change (Prim2SF 0) with (S754_zero false). destruct s; reflexivity.
Qed.

Lemma zero_correction (r : vec float) (rho_0 : float) :
  Forall (fun x => is_finite x = true) r -> is_finite rho_0 = true ->
  vadd (arith := double) (zeros (arith := double) (length r))
    (vscale (arith := double) (vscale (arith := double) r (zero (arith := double))) rho_0)
  = zeros (arith := double) (length r).
Proof.
  intros Hr Hrho. induction Hr as [|x r Hx Hr IH]; [reflexivity|].
  cbn [length]. unfold zeros in *. cbn [repeat]. unfold vadd, vscale in *.
  cbn [map zip_with]. f_equal; [|exact IH].
  change (zero (arith := double)) with 0%float. cbn [fadd fmul double_scalar].
  apply mul_zero_of_finite in Hx. destruct Hx as (s & Hs).
  eapply zero_mul_finite in Hs; [|exact Hrho]. destruct Hs as (s' & Hs').
  eapply zero_add_zero. exact Hs'.
Qed.

(** C10, amended.  In binary64 arithmetic, a restart cycle whose first inner
    step ([k = 0]) breaks down leaves [projection_rhs] as it found it (it
    is neither zero-filled when the cycle starts nor written) and adds to
    [result] the normalised residual times the entry [projection_rhs[0]]
    found, times [rho_0].  In the first cycle of [solve] that entry is still
    the zero it was allocated with, and when [rho_0] and the entries of the
    normalised residual are finite the correction is a vector of zeros and
    [result] stays the zero vector. *)
Theorem first_step_breakdown_adds_zero (matrix precond : vec float -> vec float)
    (rhs : vec float) (t : gmres_tag float) (norm_rhs : float) (w : workspace float) :
  size_preserving (problem_size rhs) matrix ->
  size_preserving (problem_size rhs) precond ->
  let kd := krylov_dim_used rhs t in
  let r0 := initial_residual (arith := double) matrix precond rhs (result w) in
  let rho_0 := norm_2 (arith := double) r0 in
  let r := vdiv (arith := double) r0 rho_0 in
  let v := precond (matrix r) in
  let z := zeros (arith := double) (problem_size rhs) in
  0 < kd ->
  cycle_sized (problem_size rhs) kd w ->
  PrimFloat.ltb (rho_0 / norm_rhs) (tolerance (tag w)) || PrimFloat.eqb norm_rhs 0 = false ->
  PrimFloat.ltb
    (PrimFloat.abs
       (PrimFloat.sqrt
          (inner_prod (arith := double) v v - inner_prod (arith := double) z z)))
    (breakdown_threshold (arith := double)) = true ->
  exists b w',
    restart_cycle (arith := double) matrix precond rhs norm_rhs kd w = Some (b, w')
    /\ projection_rhs w' = projection_rhs w
    /\ result w' =
         vadd (arith := double) (result w)
           (vscale (arith := double)
              (vscale (arith := double) r (nth 0 (projection_rhs w) 0%float)) rho_0)
    /\ (w = initial_workspace (arith := double) rhs t ->
        is_finite rho_0 = true ->
        Forall (fun x => is_finite x = true) r ->
        nth 0 (projection_rhs w) 0%float = 0%float /\ result w' = result w).
Proof.
  intros Hm Hp kd r0 rho_0 r v z Hkd Hw Hstart Hbreak.
  destruct (@first_step_breakdown_cycle float double matrix precond rhs t norm_rhs w
              Hm Hp Hkd Hw Hstart Hbreak) as (b & w' & Hc & Hpp & Hres).
  exists b, w'. split; [exact Hc|]. split; [exact Hpp|]. split; [exact Hres|].
  intros Hinit Hrho Hfin.
  assert (Hp0 : nth 0 (projection_rhs w) 0%float = 0%float).
  { rewrite Hinit. cbn [initial_workspace projection_rhs]. fold kd.
    destruct kd; [lia|reflexivity]. }
  split; [exact Hp0|].
  assert (Hlen : length r = problem_size rhs).
  { unfold r. rewrite vdiv_length. unfold r0.
    apply (@initial_residual_length float double matrix precond rhs Hm Hp).
    apply Hw. }
  assert (Hz : vadd (arith := double) (zeros (arith := double) (problem_size rhs))
                 (vscale (arith := double)
                    (vscale (arith := double) r (zero (arith := double))) rho_0)
               = zeros (arith := double) (problem_size rhs)).
  { rewrite <- Hlen. apply zero_correction; assumption. }
  assert (Hx : result w = zeros (arith := double) (problem_size rhs))
    by (rewrite Hinit; reflexivity).
  rewrite Hres.
  change (vadd (arith := double) (result w)
            (vscale (arith := double)
               (vscale (arith := double) r (nth 0 (projection_rhs w) 0%float)) rho_0)
          = result w).
  rewrite Hp0, Hx. exact Hz.
Qed.

End ZeroCorrection.

(** The claim C10 as it is worded fails in binary64 arithmetic when the
    norm overflows.  For the identity and [rhs = (2^600, 2^600)] the norm
    is infinite, the normalised residual is zero and the first inner step
    of the first cycle breaks down; [projection_rhs[0]] is zero, but the
    correction [0 * 0 * infinity] is not a number, and neither is
    [result] after the cycle. *)
Lemma first_step_breakdown_overflows :
  let A := prod (arith := double_without_libm) identity_2 in
  let norm_rhs := norm_2 (arith := double_without_libm) rhs_overflow in
  let w := initial_workspace (arith := double_without_libm) rhs_overflow
             (default_tag 0%float) in
  exists w1 w',
    inner_step (arith := double_without_libm) A no_precond rhs_overflow norm_rhs norm_rhs 0
      (enter_inner (arith := double_without_libm) A no_precond rhs_overflow 2 norm_rhs w)
      = Some (Breakdown, w1)
    /\ restart_cycle (arith := double_without_libm) A no_precond rhs_overflow norm_rhs 2 w
       = Some (false, w')
    /\ nth 0 (projection_rhs w) 0%float = 0%float
    /\ result w = [0; 0]%float
    /\ result w' = [nan; nan]%float
    /\ result w' <> result w.
Proof.
  intros A norm_rhs w. do 2 eexists.
  split; [vm_compute; reflexivity|].
  split; [vm_compute; reflexivity|].
  split; [reflexivity|]. split; [reflexivity|]. split; [reflexivity|].
  intros E. apply (f_equal (fun x => Prim2SF (nth 0 x 0%float))) in E.
  vm_compute in E. discriminate E.
Qed.

Lemma first_step_breakdown_adds_zero_witness :
  exists b w',
    restart_cycle (arith := double_without_libm)
      (prod (arith := double_without_libm) zero_matrix_1_double) no_precond
      rhs_1_double 2%float 1
      (initial_workspace (arith := double_without_libm) rhs_1_double (default_tag 0%float))
      = Some (b, w')
    /\ projection_rhs w' = [0%float]
    /\ result w' = [0%float].
Proof.
  destruct (@first_step_breakdown_adds_zero (fun x => x) (fun x => x)
              (prod (arith := double_without_libm) zero_matrix_1_double) no_precond
              rhs_1_double (default_tag 0%float) 2%float
              (initial_workspace (arith := double_without_libm) rhs_1_double
                 (default_tag 0%float)))
    as (b & w' & Hc & Hpp & _ & Hres).
  - intros v _. unfold prod. rewrite length_map. reflexivity.
  - intros v Hv. exact Hv.
  - cbn. lia.
  - repeat split.
  - reflexivity.
  - reflexivity.
  - exists b, w'. split; [exact Hc|]. split; [exact Hpp|].
    apply Hres; [reflexivity|reflexivity|repeat constructor].
Defined.

(** * Further properties of gmres.hpp *)

(** ** The copy helper *)

Section WriteBelow.

Context {A : Type}.

Lemma write_cons (h : A) (t : list A) (i : nat) (x : A) :
  write (h :: t) (S i) x = option_map (cons h) (write t i x).
Proof. cbn [write]. destruct (write t i x); reflexivity. Qed.

End WriteBelow.

Section CopyHelper.

Context {F : Type}.

Lemma copy_from_shift (a b : F) (src dest : list F) (i c : nat) :
  copy_from (a :: src) (b :: dest) (S i) c = option_map (cons b) (copy_from src dest i c).
Proof.
  revert dest i; induction c as [|c IH]; intros dest i; cbn [copy_from]; [reflexivity|].
  change (read (a :: src) (S i)) with (read src i).
  destruct (read src i) as [x|]; cbn [bind]; [|reflexivity].
  rewrite write_cons.
  destruct (write dest i x) as [d|]; cbn [bind option_map]; [|reflexivity].
  apply IH.
Qed.

(** X1. [gmres_copy_helper src dest len] is defined exactly when [len] is
    within both vectors, and then [dest] holds the first [len] entries of
    [src] followed by its own entries from [len] on. *)
Theorem gmres_copy_helper_prefix (src dest : list F) (len : nat) :
  gmres_copy_helper src dest len =
  if (len <=? length src) && (len <=? length dest)
  then Some (firstn len src ++ skipn len dest)
  else None.
Proof.
  unfold gmres_copy_helper.
  revert src dest; induction len as [|len IH]; intros src dest; [reflexivity|].
  destruct src as [|a src]; [reflexivity|].
  destruct dest as [|b dest]; [cbn; rewrite andb_false_r; reflexivity|].
  cbn [copy_from read nth_error bind write].
  rewrite copy_from_shift, IH.
  cbn [length Nat.leb firstn skipn app].
  destruct ((len <=? length src) && (len <=? length dest)); reflexivity.
Qed.

End CopyHelper.

(** ** The iteration budget and the run outputs *)

Section Budget.

Context {F : Type} `{Scalar F}.

Lemma max_restarts_defined (t : gmres_tag F) :
  krylov_dim t <> 0%Z -> exists mr, max_restarts t = Some mr.
Proof.
  unfold max_restarts, krylov_dim. intros Hk.
  destruct (Z.eqb_spec (krylov_dim_ t) 0); [contradiction|].
  destruct (_ && _); eauto.
Qed.

(** X2. The inner steps a run may take, [(max_restarts() + 1) * krylov_dim],
    are [max_iterations] rounded up to a multiple of [krylov_dim], and one
    full cycle when [max_iterations] is zero: the budget is never below
    [max_iterations] and may exceed it by up to [krylov_dim - 1] steps
    ([krylov_dim] steps for a budget of zero). *)
Theorem restart_budget_rounds_up (t : gmres_tag F) :
  is_uint (max_iterations t) -> is_uint (krylov_dim t) -> (0 < krylov_dim t)%Z ->
  exists mr,
    max_restarts t = Some mr
    /\ (0 <= mr)%Z
    /\ (max_iterations t <= (mr + 1) * krylov_dim t)%Z
    /\ (if (max_iterations t =? 0)%Z then mr = 0%Z
        else ((mr + 1) * krylov_dim t < max_iterations t + krylov_dim t)%Z)
    /\ (((mr + 1) * krylov_dim t) mod krylov_dim t = 0)%Z.
Proof.
  intros Hi Hk Hpos.
  unfold is_uint, uint_modulus, max_iterations, krylov_dim, max_restarts in *.
  set (q := (iterations_ t / krylov_dim_ t)%Z).
  destruct (Z.eqb_spec (krylov_dim_ t) 0) as [E|_]; [lia|].
  assert (Hq : (0 <= q <= iterations_ t)%Z).
  { subst q. split; [apply Z.div_pos; lia|]. apply Z.div_le_upper_bound; nia. }
  assert (Hdm := Z.div_mod (iterations_ t) (krylov_dim_ t) ltac:(lia)).
  assert (Hrem := Z.mod_pos_bound (iterations_ t) (krylov_dim_ t) Hpos).
  fold q in Hdm.
  assert (Hw : wrap (q * krylov_dim_ t) = (q * krylov_dim_ t)%Z).
  { unfold wrap, uint_modulus. apply Z.mod_small. nia. }
  rewrite Hw.
  destruct (Z.ltb_spec 0 q) as [Hq0|Hq0]; cbn [andb].
  - destruct (Z.eqb_spec (q * krylov_dim_ t) (iterations_ t)) as [E|E].
    + exists (wrap (q - 1)).
      assert (Hw1 : wrap (q - 1) = (q - 1)%Z)
        by (unfold wrap, uint_modulus; apply Z.mod_small; lia).
      rewrite Hw1. split; [reflexivity|]. split; [lia|]. split; [nia|].
      split; [|apply Z.mod_mul; lia].
      destruct (Z.eqb_spec (iterations_ t) 0); nia.
    + exists q. split; [reflexivity|]. split; [lia|]. split; [nia|].
      split; [|apply Z.mod_mul; lia].
      destruct (Z.eqb_spec (iterations_ t) 0); nia.
  - exists q. split; [reflexivity|]. split; [lia|]. split; [nia|].
    split; [|apply Z.mod_mul; lia].
    destruct (Z.eqb_spec (iterations_ t) 0); nia.
Qed.

End Budget.

Section RunOutputs.

Context {F : Type} `{Scalar F}.
Variables matrix precond : vec F -> vec F.
Variable rhs : vec F.

Abbreviation n := (problem_size rhs).

Lemma initial_workspace_sized (t : gmres_tag F) :
  cycle_sized n (krylov_dim_used rhs t) (initial_workspace rhs t).
Proof.
  repeat split; cbn [initial_workspace result v_k_tilde projection_rhs];
    apply zeros_length.
Qed.

Lemma krylov_dim_used_bounds (t : gmres_tag F) :
  0 < n -> (0 < krylov_dim t)%Z ->
  0 < krylov_dim_used rhs t <= n.
Proof.
  intros Hn Hk. unfold krylov_dim_used.
  destruct (Z.ltb_spec (Z.of_nat n) (krylov_dim t)); lia.
Qed.

Lemma solve_defined (t : gmres_tag F) :
  size_preserving n matrix -> size_preserving n precond ->
  0 < n -> (0 < krylov_dim t)%Z ->
  exists x t', solve matrix precond rhs t = Some (x, t').
Proof.
  intros Hm Hp Hn Hk. unfold solve.
  destruct (feq (norm_2 rhs) zero); [eauto|].
  assert (Hmr : exists mr, max_restarts t = Some mr) by (apply max_restarts_defined; lia).
  destruct Hmr as (mr & Hmr). rewrite Hmr. cbn [bind].
  assert (Hkd : 0 < krylov_dim_used rhs t <= n) by (apply krylov_dim_used_bounds; assumption).
  destruct (@restart_loop_ok _ _ matrix precond rhs Hm Hp (norm_2 rhs)
              (krylov_dim_used rhs t) (S (Z.to_nat mr)) (initial_workspace rhs t))
    as (w' & Hl & _); [apply initial_workspace_sized|lia|lia|].
  rewrite Hl. cbn [bind]. eauto.
Qed.

(** X3. For a right-hand side of nonzero norm, [solve] runs into undefined
    behaviour exactly when [krylov_dim] is zero (the unsigned division in
    [max_restarts()], evaluated by the first test of the restart loop);
    with a zero norm it returns before that division. *)
Theorem solve_undefined_iff_no_krylov_dim (t : gmres_tag F) :
  size_preserving n matrix -> size_preserving n precond ->
  0 < n -> is_uint (krylov_dim t) ->
  feq (norm_2 rhs) zero = false ->
  (solve matrix precond rhs t = None <-> krylov_dim t = 0%Z).
Proof.
  intros Hm Hp Hn Hu Hz. split.
  - intros Hs. destruct (Z.eq_dec (krylov_dim t) 0) as [E|E]; [exact E|].
    assert (Hd : exists x t', solve matrix precond rhs t = Some (x, t')).
    { apply solve_defined; try assumption. unfold is_uint in Hu. lia. }
    destruct Hd as (x & t' & Hd).
    congruence.
  - intros Hk. unfold solve. rewrite Hz. unfold max_restarts. unfold krylov_dim in Hk.
    rewrite Hk. reflexivity.
Qed.

(** *** The iteration counter *)

Lemma wrap_uint (z : Z) : is_uint (wrap z).
Proof. unfold is_uint, wrap, uint_modulus. apply Z.mod_pos_bound. lia. Qed.

Lemma wrap_small (z : Z) : is_uint z -> wrap z = z.
Proof. unfold is_uint, wrap. intros Hz. apply Z.mod_small. exact Hz. Qed.

Lemma inner_loop_from (norm_rhs rho_0 : F) (c k k' : nat) (w w' : workspace F) :
  inner_loop matrix precond rhs norm_rhs rho_0 c k w = Some (k', w') -> k <= k'.
Proof.
  revert k w; induction c as [|c IH]; intros k w Hl; cbn [inner_loop] in Hl.
  - inversion Hl; lia.
  - destruct (inner_step matrix precond rhs norm_rhs rho_0 k w) as [[e w1]|];
      cbn [bind] in Hl; [|discriminate].
    destruct e; [apply IH in Hl; lia|inversion Hl; lia|inversion Hl; lia].
Qed.

(** The counter after an inner loop is the counter before it plus the
    passes the loop made; these are the basis vectors built, and one more
    when the loop ended in a breakdown. *)
Lemma inner_loop_counts (norm_rhs rho_0 : F) (c k k' : nat) (w w' : workspace F) :
  is_uint (iters (tag w)) ->
  inner_loop matrix precond rhs norm_rhs rho_0 c k w = Some (k', w') ->
  is_uint (iters (tag w'))
  /\ exists s,
       inner_steps_entered matrix precond rhs norm_rhs rho_0 c k w = Some s
       /\ s <= c /\ k' - k <= s <= S (k' - k)
       /\ iters (tag w') = wrap (iters (tag w) + Z.of_nat s).
Proof.
  revert k w; induction c as [|c IH]; intros k w Hu Hl;
    cbn [inner_loop inner_steps_entered] in *.
  - inversion Hl; subst. split; [exact Hu|]. exists 0. split; [reflexivity|].
    split; [lia|]. split; [lia|].
    rewrite Z.add_0_r. symmetry. apply wrap_small. exact Hu.
  - destruct (inner_step matrix precond rhs norm_rhs rho_0 k w) as [[e w1]|] eqn:Hs;
      cbn [bind] in *; [|discriminate].
    pose proof Hs as Hi. apply inner_step_iters in Hi.
    assert (Hu1 : is_uint (iters (tag w1))) by (rewrite Hi; apply wrap_uint).
    destruct e.
    + pose proof Hl as Hl'.
      apply IH in Hl; [|exact Hu1]. destruct Hl as (Hu' & s & Hn & Hs' & Hk & Hw).
      split; [exact Hu'|].
      assert (Hle : S k <= k') by (apply inner_loop_from in Hl'; exact Hl').
      exists (S s). rewrite Hn. cbn [bind]. split; [reflexivity|].
      split; [lia|]. split; [lia|].
      rewrite Hw, Hi. unfold wrap, uint_modulus.
      rewrite Zplus_mod_idemp_l. f_equal. lia.
    + inversion Hl; subst. split; [exact Hu1|]. exists 1. split; [reflexivity|].
      split; [lia|]. split; [lia|]. exact Hi.
    + inversion Hl; subst. split; [exact Hu1|]. exists 1. split; [reflexivity|].
      split; [lia|]. split; [lia|]. exact Hi.
Qed.

Lemma finish_cycle_iters (norm_rhs rho_0 : F) (k : nat) (w w' : workspace F) (b : bool) :
  finish_cycle norm_rhs rho_0 k w = Some (b, w') -> iters (tag w') = iters (tag w).
Proof.
  unfold finish_cycle, reconstruct. intros Hf. bind_inv Hf. wsimpl.
  bind_inv E0. inversion E0; subst; clear E0. wsimpl.
  destruct (flt _ _); inversion Hf; subst; reflexivity.
Qed.

Lemma restart_cycle_counts (norm_rhs : F) (kd : nat) (w w' : workspace F) (b : bool) :
  is_uint (iters (tag w)) ->
  restart_cycle matrix precond rhs norm_rhs kd w = Some (b, w') ->
  is_uint (iters (tag w'))
  /\ exists s,
       cycle_steps_entered matrix precond rhs norm_rhs kd w = Some s
       /\ s <= kd /\ iters (tag w') = wrap (iters (tag w) + Z.of_nat s).
Proof.
  intros Hu. unfold restart_cycle, cycle_steps_entered. cbv zeta.
  destruct (_ || _).
  - intros Hc. inversion Hc; subst. wsimpl. split; [exact Hu|]. exists 0.
    split; [reflexivity|]. split; [lia|].
    rewrite Z.add_0_r. symmetry. apply wrap_small. exact Hu.
  - intros Hc. bind_inv Hc. destruct p as [k wl]. wsimpl.
    apply inner_loop_counts in E; [|exact Hu].
    destruct E as (Hu' & s & Hn & Hs & _ & Hi).
    apply finish_cycle_iters in Hc. rewrite Hc. split; [exact Hu'|].
    exists s. split; [exact Hn|]. split; [exact Hs|exact Hi].
Qed.

Lemma restart_loop_counts (norm_rhs : F) (kd c : nat) (w w' : workspace F) :
  is_uint (iters (tag w)) ->
  restart_loop matrix precond rhs norm_rhs kd c w = Some w' ->
  is_uint (iters (tag w'))
  /\ exists s,
       loop_steps_entered matrix precond rhs norm_rhs kd c w = Some s
       /\ s <= c * kd /\ iters (tag w') = wrap (iters (tag w) + Z.of_nat s).
Proof.
  revert w; induction c as [|c IH]; intros w Hu Hl;
    cbn [restart_loop loop_steps_entered] in *.
  - inversion Hl; subst. split; [exact Hu|]. exists 0. split; [reflexivity|].
    split; [lia|].
    rewrite Z.add_0_r. symmetry. apply wrap_small. exact Hu.
  - destruct (restart_cycle matrix precond rhs norm_rhs kd w) as [[b w1]|] eqn:Hc;
      cbn [bind fst snd] in *; [|discriminate].
    apply restart_cycle_counts in Hc; [|exact Hu].
    destruct Hc as (Hu1 & s1 & Hn1 & Hs1 & Hi1). rewrite Hn1. cbn [bind].
    destruct b.
    + inversion Hl; subst. split; [exact Hu1|]. exists s1.
      split; [reflexivity|]. split; [lia|exact Hi1].
    + apply IH in Hl; [|exact Hu1]. destruct Hl as (Hu' & s & Hn & Hs & Hi).
      split; [exact Hu'|].
      exists (s1 + s). rewrite Hn. cbn [bind]. split; [reflexivity|]. split; [lia|].
      rewrite Hi, Hi1. unfold wrap, uint_modulus.
      rewrite Zplus_mod_idemp_l. f_equal. lia.
Qed.

(** X4. After a run on a right-hand side of nonzero norm, [iters()] is the
    number of passes through the body of the inner loop that the run made
    ([steps_entered], a pass that ends in a breakdown included), modulo
    2^32, the width of the counter: it is counted from zero whatever the
    object held before.  That number is at most [(max_restarts() + 1)]
    times the clamped Krylov dimension. *)
Theorem solve_counts_inner_steps (t t' : gmres_tag F) (x : vec F) (mr : Z) :
  feq (norm_2 rhs) zero = false ->
  max_restarts t = Some mr ->
  solve matrix precond rhs t = Some (x, t') ->
  exists s,
    steps_entered matrix precond rhs t = Some s
    /\ iters t' = wrap (Z.of_nat s)
    /\ s <= S (Z.to_nat mr) * krylov_dim_used rhs t
    /\ s <= S (Z.to_nat mr) * Z.to_nat (krylov_dim t).
Proof.
  intros Hz Hmr. unfold solve, steps_entered. cbv zeta. rewrite Hz, Hmr. cbn [bind].
  intros Hs. bind_inv Hs. inversion Hs; subst; clear Hs.
  apply restart_loop_counts in E.
  - destruct E as (_ & s & Hn & Hs & Hi). exists s. split; [exact Hn|].
    split; [exact Hi|]. split; [exact Hs|].
    assert (krylov_dim_used rhs t <= Z.to_nat (krylov_dim t)).
    { unfold krylov_dim_used. destruct (Z.ltb_spec (Z.of_nat n) (krylov_dim t)); lia. }
    nia.
  - cbn. unfold is_uint, uint_modulus. lia.
Qed.

(** *** The configuration *)

Lemma inner_step_configuration (norm_rhs rho_0 : F) (k : nat) (w w' : workspace F)
    (e : step_exit) :
  inner_step matrix precond rhs norm_rhs rho_0 k w = Some (e, w') ->
  same_configuration (tag w) (tag w').
Proof.
  unfold inner_step. cbv zeta. intros Hs.
  bind_inv Hs. wsimpl.
  destruct (flt (ffabs _) breakdown_threshold).
  - inversion Hs; subst. repeat split.
  - bind_inv Hs. wsimpl.
    destruct (flt _ _); inversion Hs; subst; repeat split.
Qed.

Lemma same_configuration_trans (a b c : gmres_tag F) :
  same_configuration a b -> same_configuration b c -> same_configuration a c.
Proof. unfold same_configuration. intuition congruence. Qed.

Lemma inner_loop_configuration (norm_rhs rho_0 : F) (c k k' : nat) (w w' : workspace F) :
  inner_loop matrix precond rhs norm_rhs rho_0 c k w = Some (k', w') ->
  same_configuration (tag w) (tag w').
Proof.
  revert k w; induction c as [|c IH]; intros k w Hl; cbn [inner_loop] in Hl.
  - inversion Hl; subst. repeat split.
  - destruct (inner_step matrix precond rhs norm_rhs rho_0 k w) as [[e w1]|] eqn:Hs;
      cbn [bind] in Hl; [|discriminate].
    apply inner_step_configuration in Hs.
    destruct e; [apply IH in Hl; eapply same_configuration_trans; eassumption| |];
      inversion Hl; subst; exact Hs.
Qed.

Lemma finish_cycle_configuration (norm_rhs rho_0 : F) (k : nat) (w w' : workspace F)
    (b : bool) :
  finish_cycle norm_rhs rho_0 k w = Some (b, w') -> same_configuration (tag w) (tag w').
Proof.
  unfold finish_cycle, reconstruct. intros Hf. bind_inv Hf. wsimpl.
  bind_inv E0. inversion E0; subst; clear E0. wsimpl.
  destruct (flt _ _); inversion Hf; subst; repeat split.
Qed.

Lemma restart_cycle_configuration (norm_rhs : F) (kd : nat) (w w' : workspace F) (b : bool) :
  restart_cycle matrix precond rhs norm_rhs kd w = Some (b, w') ->
  same_configuration (tag w) (tag w').
Proof.
  unfold restart_cycle. cbv zeta.
  destruct (_ || _).
  - intros Hc. inversion Hc; subst. repeat split.
  - intros Hc. bind_inv Hc. destruct p as [k wl]. wsimpl.
    apply inner_loop_configuration in E. apply finish_cycle_configuration in Hc.
    eapply same_configuration_trans; eassumption.
Qed.

Lemma restart_loop_configuration (norm_rhs : F) (kd c : nat) (w w' : workspace F) :
  restart_loop matrix precond rhs norm_rhs kd c w = Some w' ->
  same_configuration (tag w) (tag w').
Proof.
  revert w; induction c as [|c IH]; intros w Hl; cbn [restart_loop] in Hl.
  - inversion Hl; subst. repeat split.
  - destruct (restart_cycle matrix precond rhs norm_rhs kd w) as [[b w1]|] eqn:Hc;
      cbn [bind fst snd] in Hl; [|discriminate].
    apply restart_cycle_configuration in Hc.
    destruct b; [inversion Hl; subst; exact Hc|].
    apply IH in Hl. eapply same_configuration_trans; eassumption.
Qed.

(** X5. [solve] writes the two run outputs of the configuration object and
    nothing else: the tolerance, the iteration budget and the Krylov
    dimension are after the call what they were before. *)
Theorem solve_keeps_configuration (t t' : gmres_tag F) (x : vec F) :
  solve matrix precond rhs t = Some (x, t') ->
  tolerance t' = tolerance t /\ max_iterations t' = max_iterations t
  /\ krylov_dim t' = krylov_dim t.
Proof.
  unfold solve. destruct (feq (norm_2 rhs) zero).
  - intros Hs. inversion Hs; subst. repeat split.
  - intros Hs. bind_inv Hs. inversion Hs; subst; clear Hs.
    apply restart_loop_configuration in E0. exact E0.
Qed.

(** X6. For a right-hand side of nonzero norm the two run outputs are
    written anew: two configuration objects with one tolerance, iteration
    budget and Krylov dimension give the same result vector, [iters()] and
    [error()], whatever [iters()] and [error()] held before the call. *)
Theorem stale_outputs_are_overwritten (t1 t2 : gmres_tag F) :
  tolerance t1 = tolerance t2 -> max_iterations t1 = max_iterations t2 ->
  krylov_dim t1 = krylov_dim t2 ->
  feq (norm_2 rhs) zero = false ->
  solve matrix precond rhs t1 = solve matrix precond rhs t2.
Proof. apply solve_overwrites_outputs. Qed.

(** X13. When the zero vector already meets the tolerance, that is when
    the test at the start of the first restart cycle succeeds
    ([rho_0 / norm_rhs < tolerance] for the residual of the initial guess),
    [solve] returns the zero vector without a pass through the inner
    loop: [iters()] is 0 and [error()] is [rho_0 / norm_rhs]. *)
Theorem start_test_returns_zero_vector (t : gmres_tag F) (mr : Z) :
  feq (norm_2 rhs) zero = false ->
  max_restarts t = Some mr ->
  let rho_0 := norm_2 (precond (vsub rhs (matrix (zeros n)))) in
  flt (fdiv rho_0 (norm_2 rhs)) (tolerance t) = true ->
  solve matrix precond rhs t
  = Some (zeros n, set_error (fdiv rho_0 (norm_2 rhs)) (set_iters 0 t))
  /\ steps_entered matrix precond rhs t = Some 0.
Proof.
  intros Hz Hmr rho_0 Hlt.
  unfold solve, steps_entered. cbv zeta. rewrite Hz, Hmr.
  cbn [bind restart_loop loop_steps_entered].
  unfold restart_cycle, cycle_steps_entered. cbv zeta.
  change (initial_residual matrix precond rhs (result (initial_workspace rhs t)))
    with (precond (vsub rhs (matrix (zeros n)))).
  fold rho_0.
  change (tolerance (tag (initial_workspace rhs t))) with (tolerance t).
  rewrite Hlt. cbn [orb bind fst snd]. split; reflexivity.
Qed.

End RunOutputs.

(** ** The coefficients across restart cycles *)

Section Coefficients.

Context {F : Type} `{Scalar F}.
Variables matrix precond : vec F -> vec F.
Variable rhs : vec F.

Lemma inner_step_coefficients (norm_rhs rho_0 : F) (k : nat) (w w' : workspace F)
    (e : step_exit) :
  inner_step matrix precond rhs norm_rhs rho_0 k w = Some (e, w') ->
  forall j, j <> k -> nth j (projection_rhs w') zero = nth j (projection_rhs w) zero.
Proof.
  unfold inner_step. cbv zeta. intros Hs j Hj.
  bind_inv Hs. wsimpl.
  destruct (flt (ffabs _) breakdown_threshold).
  - inversion Hs; subst. reflexivity.
  - bind_inv Hs. wsimpl.
    assert (Hp : nth j l4 zero = nth j (projection_rhs w) zero)
      by (eapply nth_write_other; eassumption).
    destruct (flt _ _); inversion Hs; subst; exact Hp.
Qed.

Lemma inner_loop_coefficients (norm_rhs rho_0 : F) (c k k' : nat) (w w' : workspace F) :
  inner_loop matrix precond rhs norm_rhs rho_0 c k w = Some (k', w') ->
  k <= k'
  /\ forall j, j < k \/ k' <= j ->
       nth j (projection_rhs w') zero = nth j (projection_rhs w) zero.
Proof.
  revert k w; induction c as [|c IH]; intros k w Hl; cbn [inner_loop] in Hl.
  - inversion Hl; subst. split; [lia|reflexivity].
  - destruct (inner_step matrix precond rhs norm_rhs rho_0 k w) as [[e w1]|] eqn:Hs;
      cbn [bind] in Hl; [|discriminate].
    assert (Hstep : forall j, j <> k ->
              nth j (projection_rhs w1) zero = nth j (projection_rhs w) zero)
      by (eapply inner_step_coefficients; exact Hs).
    destruct e.
    + apply IH in Hl. destruct Hl as (Hle & Hrest). split; [lia|].
      intros j Hj. rewrite Hrest by lia. apply Hstep. lia.
    + inversion Hl; subst. split; [lia|].
      clear Hstep. unfold inner_step in Hs. cbv zeta in Hs. bind_inv Hs. wsimpl.
      destruct (flt (ffabs _) breakdown_threshold).
      * inversion Hs; subst. reflexivity.
      * bind_inv Hs. destruct (flt _ _); discriminate.
    + inversion Hl; subst. split; [lia|]. intros j Hj. apply Hstep. lia.
Qed.

(** X14. The coefficient vector [projection_rhs] is zero-filled once, before
    the restart loop, and never again: a restart cycle whose inner loop
    ends with the effective size [k] leaves every entry from index [k] on
    as the cycle before left it. *)
Theorem cycle_keeps_later_coefficients (norm_rhs rho_0 : F) (kd k : nat)
    (w w1 w2 : workspace F) (b : bool) :
  inner_loop matrix precond rhs norm_rhs rho_0 kd 0
    (enter_inner matrix precond rhs kd rho_0 w) = Some (k, w1) ->
  finish_cycle norm_rhs rho_0 k w1 = Some (b, w2) ->
  forall j, k <= j ->
    nth j (projection_rhs w2) zero = nth j (projection_rhs w) zero.
Proof.
  intros Hl Hf j Hj.
  apply inner_loop_coefficients in Hl. destruct Hl as (_ & Hl).
  specialize (Hl j (or_intror Hj)).
  change (projection_rhs (enter_inner matrix precond rhs kd rho_0 w))
    with (projection_rhs w) in Hl.
  rewrite <- Hl. clear Hl.
  unfold finish_cycle, reconstruct in Hf. bind_inv Hf. wsimpl.
  bind_inv E0. inversion E0; subst; clear E0. wsimpl.
  apply back_substitution_rows in E; [|lia]. destruct E as (Hkeep & _).
  destruct (flt _ _); inversion Hf; subst; wsimpl; apply Hkeep; exact Hj.
Qed.

End Coefficients.

(** ** The back-substitution in any arithmetic *)

Section BackSubstitutionRows.

Context {F : Type} `{Scalar F}.

(** X7. The back-substitution in any arithmetic, also a rounding one:
    entries from [k] on are left alone, and entry [i < k] of the result is
    [p[i]] less the products [R[j][i] * c[j]] for [j = i+1, ..., k-1],
    subtracted one after the other in that order, divided by [R[i][i]]. *)
Theorem back_substitution_recurrence (Rs : list (list F)) (k : nat) (p c : list F) :
  back_substitution Rs k k p = Some c ->
  (forall l, k <= l -> nth l c zero = nth l p zero)
  /\ (forall i, i < k ->
        nth i c zero =
        fdiv (sub_range (fun j => fmul (entry Rs j i) (nth j c zero))
                (nth i p zero) (S i) (k - S i))
             (entry Rs i i)).
Proof. intros Hb. apply back_substitution_rows in Hb; [exact Hb|lia]. Qed.

End BackSubstitutionRows.

(** ** The clamps in binary64 arithmetic *)

Section FloatOrder.

Lemma SFcompare_antisym (a b : spec_float) :
  SFcompare b a = option_map CompOpp (SFcompare a b).
Proof.
  destruct a as [s1|s1| |s1 m1 e1], b as [s2|s2| |s2 m2 e2]; cbn;
    try reflexivity; try (destruct s1; reflexivity); try (destruct s2; reflexivity);
    try (destruct s1, s2; reflexivity).
  destruct s1, s2; cbn; try reflexivity;
    rewrite (Z.compare_antisym e1 e2); destruct (e1 ?= e2)%Z; cbn; try reflexivity;
    rewrite (Pos.compare_cont_antisym m1 m2 Eq); cbn;
    try rewrite CompOpp_involutive; reflexivity.
Qed.

Lemma SFcompare_refl (a : spec_float) :
  a <> S754_nan -> SFcompare a a = Some Eq.
Proof.
  destruct a as [s|s| |s m e]; cbn; intros Hn; try reflexivity; try contradiction.
  - destruct s; reflexivity.
  - rewrite Z.compare_refl, Pos.compare_cont_refl. destruct s; reflexivity.
Qed.

Lemma SFcompare_defined (a b : spec_float) :
  a <> S754_nan -> b <> S754_nan -> exists c, SFcompare a b = Some c.
Proof.
  destruct a, b; cbn; intros Ha Hb; try contradiction; eauto.
Qed.

Lemma SFcompare_nan (a b : spec_float) (c : comparison) :
  SFcompare a b = Some c -> a <> S754_nan /\ b <> S754_nan.
Proof. destruct a, b; cbn; intros Hc; split; congruence. Qed.

(** A binary64 number is a number when it compares equal to itself. *)
Lemma eqb_self_number (x : float) : (x =? x)%float = true <-> Prim2SF x <> S754_nan.
Proof.
  rewrite FloatAxioms.eqb_spec. unfold SFeqb. split.
  - intros Hx Hn. rewrite Hn in Hx. discriminate.
  - intros Hn. rewrite SFcompare_refl by exact Hn. reflexivity.
Qed.

Lemma ltb_numbers (x y : float) :
  (x <? y)%float = true -> (x =? x)%float = true /\ (y =? y)%float = true.
Proof.
  rewrite FloatAxioms.ltb_spec, !eqb_self_number. unfold SFltb.
  destruct (SFcompare (Prim2SF x) (Prim2SF y)) as [c|] eqn:E; [|discriminate].
  intros _. eapply SFcompare_nan. exact E.
Qed.

Lemma leb_numbers (x y : float) :
  (x <=? y)%float = true -> (x =? x)%float = true /\ (y =? y)%float = true.
Proof.
  rewrite FloatAxioms.leb_spec, !eqb_self_number. unfold SFleb.
  destruct (SFcompare (Prim2SF x) (Prim2SF y)) as [c|] eqn:E; [|discriminate].
  intros _. eapply SFcompare_nan. exact E.
Qed.

Lemma opp_number (x : float) : (x =? x)%float = true -> (- x =? - x)%float = true.
Proof.
  rewrite !eqb_self_number, FloatAxioms.opp_spec. destruct (Prim2SF x); cbn; congruence.
Qed.

Lemma not_ltb_leb (x y : float) :
  (x =? x)%float = true -> (y =? y)%float = true ->
  (x <? y)%float = false -> (y <=? x)%float = true.
Proof.
  rewrite !eqb_self_number, FloatAxioms.ltb_spec, FloatAxioms.leb_spec. unfold SFltb, SFleb.
  intros Hx Hy. rewrite (SFcompare_antisym (Prim2SF x) (Prim2SF y)).
  assert (Hd : exists c, SFcompare (Prim2SF x) (Prim2SF y) = Some c)
    by (apply SFcompare_defined; assumption).
  destruct Hd as (c & Hc). rewrite Hc.
  destruct c; cbn; congruence.
Qed.

Lemma leb_refl (x : float) : (x =? x)%float = true -> (x <=? x)%float = true.
Proof.
  rewrite eqb_self_number, FloatAxioms.leb_spec. unfold SFleb. intros Hx.
  rewrite SFcompare_refl by exact Hx. reflexivity.
Qed.

Lemma opp_leb_self (x : float) : (0 <=? x)%float = true -> (- x <=? x)%float = true.
Proof.
  rewrite !FloatAxioms.leb_spec, FloatAxioms.opp_spec. change (Prim2SF 0) with (S754_zero false).
  unfold SFleb. destruct (Prim2SF x) as [s|s| |s m e]; cbn;
    try discriminate; try reflexivity; destruct s; cbn; try discriminate; reflexivity.
Qed.

Lemma ltb_opp_self (x : float) : (0 <=? x)%float = true -> (x <? - x)%float = false.
Proof.
  rewrite FloatAxioms.ltb_spec, FloatAxioms.leb_spec, FloatAxioms.opp_spec. change (Prim2SF 0) with (S754_zero false).
  unfold SFleb, SFltb. destruct (Prim2SF x) as [s|s| |s m e]; cbn;
    try discriminate; try reflexivity; destruct s; cbn; try discriminate; reflexivity.
Qed.

End FloatOrder.

Section ClampDouble.

Variables libm_sin libm_acos : float -> float.

Abbreviation double := (double_scalar libm_sin libm_acos).

(** X10. The two clamps of lines 265-269 in binary64 arithmetic, for a
    bound [rho >= 0]: only [res[k]] is written; if [res[k]] is a number it
    ends in [[-rho, rho]]; if it is not a number both comparisons are
    false and the vector is left as it is. *)
Theorem clamp_bounds_numbers (k : nat) (r r' : vec float) (rh : float) :
  clamp (arith := double) k r rh = Some r' ->
  (0 <=? rh)%float = true ->
  let x := nth k r nan in
  let y := nth k r' nan in
  length r' = length r
  /\ (forall i, i <> k -> nth i r' nan = nth i r nan)
  /\ ((x =? x)%float = true -> ((- rh <=? y) && (y <=? rh))%float = true)
  /\ ((x =? x)%float = false -> r' = r).
Proof.
  intros Hc H0 x y. unfold clamp in Hc. cbn [flt fneg double_scalar] in Hc.
  assert (Hrh : (rh =? rh)%float = true) by (apply leb_numbers in H0; apply H0).
  assert (Hopp : (- rh =? - rh)%float = true) by (apply opp_number; exact Hrh).
  assert (Hself : (rh <=? rh)%float = true) by (apply leb_refl; exact Hrh).
  assert (Hoself : (- rh <=? - rh)%float = true) by (apply leb_refl; exact Hopp).
  assert (Hle : (- rh <=? rh)%float = true) by (apply opp_leb_self; exact H0).
  assert (Hnlt : (rh <? - rh)%float = false) by (apply ltb_opp_self; exact H0).
  destruct (read r k) as [x0|] eqn:Ex; cbn [bind] in Hc; [|discriminate].
  assert (Hx : x = x0) by (apply read_nth; exact Ex).
  destruct (rh <? x0)%float eqn:L1.
  - destruct (write r k rh) as [r1|] eqn:Ew; cbn [bind] in Hc; [|discriminate].
    assert (Hrd : read r1 k = Some rh) by (eapply read_write_same; exact Ew).
    rewrite Hrd in Hc. cbn [bind] in Hc.
    rewrite Hnlt in Hc. inversion Hc; subst r'; clear Hc.
    split; [eapply write_length; exact Ew|].
    split; [intros i Hi; eapply nth_write_other; [exact Ew|exact Hi]|].
    split.
    + intros _. assert (Hy : y = rh) by (eapply nth_write_same; exact Ew).
      rewrite Hy, Hle, Hself. reflexivity.
    + intros Hn. apply ltb_numbers in L1. destruct L1 as (_ & Hx0). congruence.
  - cbn [bind] in Hc. rewrite Ex in Hc. cbn [bind] in Hc.
    destruct (x0 <? - rh)%float eqn:L2.
    + split; [eapply write_length; exact Hc|].
      split; [intros i Hi; eapply nth_write_other; [exact Hc|exact Hi]|].
      split.
      * intros _. assert (Hy : y = (- rh)%float) by (eapply nth_write_same; exact Hc).
        rewrite Hy, Hoself, Hle. reflexivity.
      * intros Hn. apply ltb_numbers in L2. destruct L2 as (Hx0 & _). congruence.
    + inversion Hc; subst r'; clear Hc.
      split; [reflexivity|]. split; [reflexivity|]. split; [|reflexivity].
      intros Hn. unfold y. fold x. rewrite Hx in *.
      assert (H1 : (- rh <=? x0)%float = true) by (apply not_ltb_leb; assumption).
      assert (H2 : (x0 <=? rh)%float = true) by (apply not_ltb_leb; assumption).
      rewrite H1, H2. reflexivity.
Qed.

End ClampDouble.

(** ** Instances of the further properties *)

Lemma identity_3_acts (v : vec R) : length v = 3 -> prod identity_3 v = v.
Proof.
  destruct v as [|x [|y [|z [|? ?]]]]; intros Hl; try discriminate.
  unfold prod, identity_3, inner_prod.
  cbn [map inner_prod_acc zero from_int fadd fmul real_scalar].
  repeat f_equal; lra.
Qed.

Lemma norm_rhs_3 : (1 < norm_2 rhs_3)%R.
Proof.
  unfold norm_2, rhs_3, inner_prod.
  cbn [inner_prod_acc zero from_int fadd fmul fsqrt real_scalar].
  rewrite <- sqrt_1 at 1. apply sqrt_lt_1; lra.
Qed.

Lemma norm_rhs_3_nonzero : feq (norm_2 rhs_3) zero = false.
Proof.
  apply real_eq_false. pose proof norm_rhs_3. unfold zero. cbn [from_int real_scalar]. lra.
Qed.

Lemma solve_rhs_3_defined :
  exists x t', solve (prod identity_3) no_precond rhs_3 tag_100 = Some (x, t').
Proof.
  apply solve_defined.
  - apply (@prod_size identity_3).
  - apply (@no_precond_size 3).
  - cbn. lia.
  - cbn. lia.
Qed.

Lemma restart_budget_rounds_up_witness :
  exists mr,
    max_restarts tag_250 = Some mr
    /\ (250 <= (mr + 1) * 100 < 250 + 100)%Z.
Proof.
  destruct (@restart_budget_rounds_up R tag_250) as (mr & Hmr & _ & Hlo & Hhi & _).
  - unfold is_uint, uint_modulus. cbn. lia.
  - unfold is_uint, uint_modulus. cbn. lia.
  - cbn. lia.
  - exists mr. split; [exact Hmr|]. split; [exact Hlo|exact Hhi].
Defined.

Lemma solve_undefined_iff_no_krylov_dim_witness :
  solve (prod identity_3) no_precond rhs_3 tag_no_krylov_dim = None.
Proof.
  apply (@solve_undefined_iff_no_krylov_dim R _ (prod identity_3) no_precond rhs_3
           tag_no_krylov_dim).
  - apply (@prod_size identity_3).
  - apply (@no_precond_size 3).
  - cbn. lia.
  - unfold is_uint, uint_modulus. cbn. lia.
  - exact norm_rhs_3_nonzero.
  - reflexivity.
Defined.

Lemma solve_counts_inner_steps_witness :
  exists x t' s,
    solve (prod identity_3) no_precond rhs_3 tag_100 = Some (x, t')
    /\ steps_entered (prod identity_3) no_precond rhs_3 tag_100 = Some s
    /\ iters t' = wrap (Z.of_nat s) /\ s <= 3 * 3.
Proof.
  destruct solve_rhs_3_defined as (x & t' & Hs).
  destruct (@solve_counts_inner_steps R _ (prod identity_3) no_precond rhs_3
              tag_100 t' x 2%Z norm_rhs_3_nonzero) as (s & Hn & Hi & Hb & _).
  - reflexivity.
  - exact Hs.
  - exists x, t', s. split; [exact Hs|]. split; [exact Hn|]. split; [exact Hi|exact Hb].
Defined.

Lemma solve_keeps_configuration_witness :
  exists x t',
    solve (prod identity_3) no_precond rhs_3 tag_100 = Some (x, t')
    /\ tolerance t' = real_tolerance /\ max_iterations t' = 300%Z
    /\ krylov_dim t' = 100%Z.
Proof.
  destruct solve_rhs_3_defined as (x & t' & Hs).
  exists x, t'. split; [exact Hs|].
  apply (@solve_keeps_configuration R _ (prod identity_3) no_precond rhs_3 tag_100 t' x Hs).
Defined.

Lemma stale_outputs_are_overwritten_witness :
  iters tag_used = 7%Z /\ error tag_used = 5%R
  /\ solve (prod identity_3) no_precond rhs_3 tag_100
     = solve (prod identity_3) no_precond rhs_3 tag_used.
Proof.
  split; [reflexivity|]. split; [reflexivity|].
  apply (@stale_outputs_are_overwritten R _ (prod identity_3) no_precond rhs_3
           tag_100 tag_used); try reflexivity.
  exact norm_rhs_3_nonzero.
Defined.

Lemma back_substitution_recurrence_witness :
  exists c,
    back_substitution R_2 2 2 p_2 = Some c
    /\ nth 1 c 0%R = (8 / 4)%R.
Proof.
  destruct (@back_substitution_ok R _ 2 R_2 2 2 p_2) as (c & Hb & _);
    [reflexivity|repeat constructor|reflexivity|lia|lia|].
  exists c. split; [exact Hb|].
  destruct (@back_substitution_recurrence R _ R_2 2 p_2 c Hb) as (_ & Hrows).
  exact (Hrows 1 ltac:(lia)).
Defined.

Lemma clamp_bounds_numbers_witness :
  clamp (arith := double_scalar (fun x => x) (fun x => x)) 0 [3; 0]%float 1%float
    = Some [1; 0]%float
  /\ ((- 1 <=? 1) && (1 <=? 1))%float = true.
Proof.
  split; [reflexivity|].
  apply (@clamp_bounds_numbers (fun x => x) (fun x => x) 0 [3; 0]%float [1; 0]%float 1%float);
    reflexivity.
Defined.

Lemma cycle_keeps_later_coefficients_witness :
  exists k w1 b w2,
    inner_loop (prod zero_matrix_1) no_precond rhs_1 2%R 2%R 1 0
      (enter_inner (prod zero_matrix_1) no_precond rhs_1 1 2%R
         (initial_workspace rhs_1 tag_1)) = Some (k, w1)
    /\ finish_cycle 2%R 2%R k w1 = Some (b, w2)
    /\ forall j, k <= j ->
         nth j (projection_rhs w2) zero
         = nth j (projection_rhs (initial_workspace rhs_1 tag_1)) zero.
Proof.
  assert (Hw : well_sized (problem_size rhs_1) 1
                 (enter_inner (prod zero_matrix_1) no_precond rhs_1 1 2%R
                    (initial_workspace rhs_1 tag_1))).
  { apply enter_inner_sized.
    - apply (@prod_size zero_matrix_1).
    - apply (@no_precond_size 1).
    - repeat split. }
  destruct (@inner_loop_ok R _ (prod zero_matrix_1) no_precond rhs_1
              (@prod_size zero_matrix_1) (@no_precond_size 1) 2%R 2%R 1 1 0 _ Hw)
    as (k & w1 & Hl & Hw1 & Hk); [cbn; lia|lia|].
  destruct (@finish_cycle_ok R _ rhs_1 2%R 2%R 1 k w1 Hw1) as (b & w2 & Hf & _);
    [lia|cbn; lia|lia|].
  exists k, w1, b, w2. split; [exact Hl|]. split; [exact Hf|].
  exact (@cycle_keeps_later_coefficients R _ (prod zero_matrix_1) no_precond rhs_1
           2%R 2%R 1 k (initial_workspace rhs_1 tag_1) w1 w2 b Hl Hf).
Defined.

Lemma start_test_returns_zero_vector_witness :
  solve (arith := double_without_libm) (prod (arith := double_without_libm) identity_2)
    no_precond rhs_34 tag_tolerance_2
  = Some ([0; 0]%float, set_error 1%float (set_iters 0 tag_tolerance_2))
  /\ steps_entered (arith := double_without_libm)
       (prod (arith := double_without_libm) identity_2) no_precond rhs_34 tag_tolerance_2
     = Some 0.
Proof.
  apply (@start_test_returns_zero_vector float double_without_libm
           (prod (arith := double_without_libm) identity_2) no_precond rhs_34
           tag_tolerance_2 14%Z); reflexivity.
Defined.
